(** * The multi-backend rate limiter of [main.py]

    A shallow embedding of the rate limiting part of the service:
    [check_rate_limit] and its three stores (Redis sorted sets, the
    [rate_limits] table, the in-process [rate_limit_storage] dictionary), and
    [get_client_ip].

    Conventions of the embedding.
    - [time.time()] readings, the scores of Redis and the [timestamp] column
      are binary64 numbers in the program and integers, of type [Z], here; the
      comparisons and subtractions are written as in the source.  On whole
      numbers of seconds (below 2^53) binary64 subtracts and compares without
      rounding, so the embedding follows the program on such readings, the
      only ones that the examples and the evaluations below use.  On other
      readings the subtraction of the program rounds, and a comparison at the
      very edge of the window can fall on the other side.
    - The two settings read from the process environment form a [Config];
      [int(os.getenv(..))] accepts any integer, so both fields are [Z].
    - Python exceptions are the [Raised] case of [outcome], which keeps the
      state in which the exception left the code; [try]/[except Exception]
      is [try_except] and [try]/[finally] is [try_finally].
    - Whether Redis or the database answers is not decided by the program: each
      call receives the [faults] that its environment injects.  The pipeline
      of Redis fails before it is sent or after the server has run it; the
      session of the database fails at one of its statements. *)

From Stdlib Require Import ZArith Lia Ascii String.
From stdpp Require Import gmap strings list fin_maps pretty.
Local Open Scope Z_scope.

(** ** Settings *)

Record Config := {
  RATE_LIMIT_REQUESTS : Z;
  RATE_LIMIT_WINDOW : Z
}.

(** ** Exceptions *)

Inductive exn :=
| AttributeError      (* [None.pipeline()] *)
| TypeError           (* [None()] *)
| RedisConnectionError
| RedisTimeoutError
| OperationalError.

(** What a piece of code does with a state of type [S]: it returns a value,
    or it raises; [Raised e s] says that [e] was raised with the state at [s]. *)
Inductive outcome (S A : Type) :=
| Returned (a : A)
| Raised (e : exn) (s : S).
Arguments Returned {S A} a.
Arguments Raised {S A} e s.

(** [try: body / except Exception as e: handler], the handler running in the
    state that the body left. *)
Definition try_except {S A} (body : outcome S A) (handler : exn → S → outcome S A)
    : outcome S A :=
  match body with
  | Returned a => Returned a
  | Raised e s => handler e s
  end.

(** [try: body / finally: cleanup]: the clean-up runs however the body ends;
    when it raises, its exception is the one that leaves. *)
Definition try_finally {S A} (body : outcome S (A * S)) (cleanup : S → option exn)
    : outcome S (A * S) :=
  let s := match body with
           | Returned (_, s) | Raised _ s => s
           end in
  match cleanup s with
  | Some e => Raised e s
  | None => body
  end.

(** ** The in-process store: [rate_limit_storage = defaultdict(list)] *)

(** Reading [d[k]] on a [defaultdict(list)] yields the empty list for a key
    that is not there. *)
Definition getitem (d : gmap string (list Z)) (k : string) : list Z :=
  default [] (d !! k).

Definition check_rate_limit_memory (cfg : Config) (client_ip : string) (current_time : Z)
    (rate_limit_storage : gmap string (list Z)) : bool * gmap string (list Z) :=
  (* Clean old requests outside the window *)
  let storage1 :=
    <[client_ip :=
        filter (λ req_time, current_time - req_time < RATE_LIMIT_WINDOW cfg)
               (getitem rate_limit_storage client_ip)]> rate_limit_storage in
  (* Check if under limit *)
  if bool_decide (Z.of_nat (length (getitem storage1 client_ip)) >= RATE_LIMIT_REQUESTS cfg)
  then (false, storage1)
  else
    (* Add current request *)
    (true, <[client_ip := getitem storage1 client_ip ++ [current_time]]> storage1).

(** ** The Redis store

    A key of the Redis database holds a sorted set (member to score) and,
    once [EXPIRE] has been issued, the time at which the key dies.  The server
    clock is taken to read the same time as the caller's [current_time].  An
    expired key is deleted lazily, when a command next touches it. *)

Module Redis.

Record value := {
  members : gmap string Z;
  expire_at : option Z
}.

Inductive command :=
| ZREMRANGEBYSCORE (key : string) (min max : Z)
| ZCARD (key : string)
| ZADD (key : string) (member : string) (score : Z)
| EXPIRE (key : string) (seconds : Z).

Definition key_of (c : command) : string :=
  match c with
  | ZREMRANGEBYSCORE key _ _ | ZCARD key | ZADD key _ _ | EXPIRE key _ => key
  end.

Definition purge (now : Z) (key : string) (db : gmap string value) : gmap string value :=
  match db !! key with
  | Some {| expire_at := Some deadline |} =>
      if bool_decide (deadline ≤ now) then delete key db else db
  | _ => db
  end.

(** The members that [ZREMRANGEBYSCORE key min max] leaves in a sorted set:
    a member goes when [min ≤ score ≤ max]. *)
Definition outside_range (min max : Z) (zs : gmap string Z) : gmap string Z :=
  filter (λ entry, ¬ (min ≤ entry.2 ∧ entry.2 ≤ max)) zs.

Definition zremrangebyscore (key : string) (min max : Z)
    (db : gmap string value) : Z * gmap string value :=
  match db !! key with
  | None => (0, db)
  | Some v =>
      let kept := outside_range min max (members v) in
      let removed := Z.of_nat (size (members v)) - Z.of_nat (size kept) in
      (* a sorted set left empty is removed together with its key *)
      if bool_decide (kept = ∅) then (removed, delete key db)
      else (removed, <[key := {| members := kept; expire_at := expire_at v |}]> db)
  end.

Definition zcard (key : string) (db : gmap string value) : Z :=
  match db !! key with
  | None => 0
  | Some v => Z.of_nat (size (members v))
  end.

Definition zadd (key member : string) (score : Z)
    (db : gmap string value) : Z * gmap string value :=
  match db !! key with
  | None => (1, <[key := {| members := {[member := score]}; expire_at := None |}]> db)
  | Some v =>
      (if members v !! member is Some _ then 0 else 1,
       <[key := {| members := <[member := score]> (members v);
                   expire_at := expire_at v |}]> db)
  end.

Definition expire (now : Z) (key : string) (seconds : Z)
    (db : gmap string value) : Z * gmap string value :=
  match db !! key with
  | None => (0, db)
  | Some v =>
      (* a timeout that is not positive deletes the key at once *)
      if bool_decide (seconds ≤ 0) then (1, delete key db)
      else (1, <[key := {| members := members v; expire_at := Some (now + seconds) |}]> db)
  end.

Definition exec_command (now : Z) (c : command)
    (db : gmap string value) : Z * gmap string value :=
  let db := purge now (key_of c) db in
  match c with
  | ZREMRANGEBYSCORE key min max => zremrangebyscore key min max db
  | ZCARD key => (zcard key db, db)
  | ZADD key member score => zadd key member score db
  | EXPIRE key seconds => expire now key seconds db
  end.

(** [pipe.execute()]: the queued commands run in order, as one transaction,
    and their replies come back as a list. *)
Fixpoint execute (now : Z) (pipe : list command)
    (db : gmap string value) : list Z * gmap string value :=
  match pipe with
  | [] => ([], db)
  | c :: pipe' =>
      let '(reply, db1) := exec_command now c db in
      let '(replies, db2) := execute now pipe' db1 in
      (reply :: replies, db2)
  end.

End Redis.

(** [str(current_time)]: the decimal text of the time, one text per time. *)
Definition str (current_time : Z) : string := pretty current_time.

(** ** The relational store: table [rate_limits] *)

Module RateLimitRecord.
Record t := {
  id : Z;
  client_ip : string;
  timestamp : Z
}.
End RateLimitRecord.

Record table := {
  rows : list RateLimitRecord.t;
  next_id : Z
}.

(** The statement of a session at which the database fails. *)
Inductive db_step := AtConnect | AtDelete | AtCount | AtCommit | AtClose.

Global Instance db_step_eq_dec : EqDecision db_step.
Proof. solve_decision. Defined.

(** [db.query(RateLimitRecord).filter(client_ip == .., timestamp < ..).delete()] *)
Definition delete_expired (client_ip : string) (cutoff_time : Z)
    (rs : list RateLimitRecord.t) : list RateLimitRecord.t :=
  filter (λ r, ¬ (RateLimitRecord.client_ip r = client_ip
                  ∧ RateLimitRecord.timestamp r < cutoff_time)) rs.

(** [db.query(RateLimitRecord).filter(client_ip == ..).count()] *)
Definition count_for (client_ip : string) (rs : list RateLimitRecord.t) : Z :=
  Z.of_nat (length (filter (λ r, RateLimitRecord.client_ip r = client_ip) rs)).

(** ** Process state and the environment of a call *)

Record world := {
  redis_client : option (gmap string Redis.value);   (* [None]: not connected at start *)
  SessionLocal : option table;                       (* [None]: no database at start *)
  rate_limit_storage : gmap string (list Z)
}.

(** Where [pipe.execute()] fails: before the transaction reaches the server,
    or once the server has run it, the replies being lost on their way back. *)
Inductive pipe_step := AtSend | AtReply.

Global Instance pipe_step_eq_dec : EqDecision pipe_step.
Proof. solve_decision. Defined.

Record faults := {
  redis_fault : option pipe_step;   (* [pipe.execute()] raises, at this point *)
  db_fault : option db_step         (* the session raises at this statement *)
}.

Definition healthy : faults := {| redis_fault := None; db_fault := None |}.

Definition set_redis (db : gmap string Redis.value) (w : world) : world :=
  {| redis_client := Some db; SessionLocal := SessionLocal w;
     rate_limit_storage := rate_limit_storage w |}.

Definition set_table (tb : table) (w : world) : world :=
  {| redis_client := redis_client w; SessionLocal := Some tb;
     rate_limit_storage := rate_limit_storage w |}.

Definition set_storage (s : gmap string (list Z)) (w : world) : world :=
  {| redis_client := redis_client w; SessionLocal := SessionLocal w;
     rate_limit_storage := s |}.

(** [check_rate_limit_memory] acting on the module-level dictionary. *)
Definition memory_check (cfg : Config) (client_ip : string) (current_time : Z)
    (w : world) : bool * world :=
  let '(allowed, s) := check_rate_limit_memory cfg client_ip current_time (rate_limit_storage w) in
  (allowed, set_storage s w).

(** ** [check_rate_limit_redis] *)

Definition redis_try (cfg : Config) (env : faults) (client_ip : string) (current_time : Z)
    (w : world) : outcome world (bool * world) :=
  let key := "rate_limit:" +:+ client_ip in
  match redis_client w with
  | None => Raised AttributeError w
  | Some db =>
      let pipe :=
        [ Redis.ZREMRANGEBYSCORE key 0 (current_time - RATE_LIMIT_WINDOW cfg);
          Redis.ZCARD key;
          Redis.ZADD key (str current_time) current_time;
          Redis.EXPIRE key (RATE_LIMIT_WINDOW cfg) ] in
      (* Execute pipeline *)
      match redis_fault env with
      | Some AtSend => Raised RedisConnectionError w
      | Some AtReply =>
          Raised RedisTimeoutError (set_redis (Redis.execute current_time pipe db).2 w)
      | None =>
          let '(results, db') := Redis.execute current_time pipe db in
          let current_count := nth 1 results 0 in
          Returned (bool_decide (current_count < RATE_LIMIT_REQUESTS cfg), set_redis db' w)
      end
  end.

Definition check_rate_limit_redis (cfg : Config) (env : faults) (client_ip : string)
    (current_time : Z) (w : world) : outcome world (bool * world) :=
  try_except (redis_try cfg env client_ip current_time w)
    (λ e w', (* Falling back to in-memory. *)
             Returned (memory_check cfg client_ip current_time w')).

(** ** [check_rate_limit_database]

    The session works on its own copy of the rows; only [db.commit()] writes
    them back, and [db.close()] in the [finally] clause drops what was not
    committed.  [db = SessionLocal()] stands before the inner [try]. *)

Definition database_try (cfg : Config) (env : faults) (client_ip : string) (current_time : Z)
    (w : world) : outcome world (bool * world) :=
  match SessionLocal w with
  | None => Raised TypeError w
  | Some tb =>
      if bool_decide (db_fault env = Some AtConnect) then Raised OperationalError w else
      try_finally
        ((* Clean old records outside the window *)
         let cutoff_time := current_time - RATE_LIMIT_WINDOW cfg in
         if bool_decide (db_fault env = Some AtDelete) then Raised OperationalError w else
         let session_rows := delete_expired client_ip cutoff_time (rows tb) in
         (* Count current requests *)
         if bool_decide (db_fault env = Some AtCount) then Raised OperationalError w else
         let current_count := count_for client_ip session_rows in
         (* Check if under limit *)
         if bool_decide (current_count >= RATE_LIMIT_REQUESTS cfg) then Returned (false, w)
         else
           (* Add current request *)
           let new_record :=
             {| RateLimitRecord.id := next_id tb;
                RateLimitRecord.client_ip := client_ip;
                RateLimitRecord.timestamp := current_time |} in
           if bool_decide (db_fault env = Some AtCommit) then Raised OperationalError w else
           Returned (true,
                     set_table {| rows := session_rows ++ [new_record];
                                  next_id := next_id tb + 1 |} w))
        (* db.close() *)
        (λ _, if bool_decide (db_fault env = Some AtClose) then Some OperationalError
              else None)
  end.

Definition check_rate_limit_database (cfg : Config) (env : faults) (client_ip : string)
    (current_time : Z) (w : world) : outcome world (bool * world) :=
  try_except (database_try cfg env client_ip current_time w)
    (λ e w', (* Falling back to in-memory. *)
             Returned (memory_check cfg client_ip current_time w')).

(** ** [check_rate_limit]

    [current_time] is the reading of [time.time()] taken on entry. *)
Definition check_rate_limit (cfg : Config) (env : faults) (client_ip : string)
    (current_time : Z) (w : world) : outcome world (bool * world) :=
  if redis_client w is Some _ then check_rate_limit_redis cfg env client_ip current_time w
  else if SessionLocal w is Some _ then check_rate_limit_database cfg env client_ip current_time w
  else Returned (memory_check cfg client_ip current_time w).

(** ** Sequences of checks *)

(** One request as the limiter sees it. *)
Record call := {
  call_env : faults;
  call_ip : string;
  call_time : Z
}.

(** The checks of a list of requests, one after the other, on the in-process
    store alone: the answers in order, and the store left behind. *)
Fixpoint memory_checks (cfg : Config) (calls : list (string * Z))
    (storage : gmap string (list Z)) : list bool * gmap string (list Z) :=
  match calls with
  | [] => ([], storage)
  | (client_ip, current_time) :: calls' =>
      let '(allowed, storage1) := check_rate_limit_memory cfg client_ip current_time storage in
      let '(answers, storage2) := memory_checks cfg calls' storage1 in
      (allowed :: answers, storage2)
  end.

(** The same through [check_rate_limit]; an exception that escapes a check
    ends the run. *)
Fixpoint checks (cfg : Config) (calls : list call) (w : world)
    : outcome world (list bool * world) :=
  match calls with
  | [] => Returned ([], w)
  | c :: calls' =>
      match check_rate_limit cfg (call_env c) (call_ip c) (call_time c) w with
      | Raised e w1 => Raised e w1
      | Returned (allowed, w1) =>
          match checks cfg calls' w1 with
          | Raised e w2 => Raised e w2
          | Returned (answers, w2) => Returned (allowed :: answers, w2)
          end
      end
  end.

(** The store that the start-up code selected: Redis when a client exists,
    else the database when a session factory exists, else the dictionary. *)
Inductive backend := Shared | Relational | Memory.

Definition selected (w : world) : backend :=
  if redis_client w is Some _ then Shared
  else if SessionLocal w is Some _ then Relational
  else Memory.

(** ** [get_client_ip] *)

Local Open Scope string_scope.

(** [c.isspace()] for a character of a header value (Latin-1). *)
Definition isspace (c : ascii) : bool :=
  let n := N_of_ascii c in
  ((9 <=? n) && (n <=? 13) || (28 <=? n) && (n <=? 32) || (n =? 133) || (n =? 160))%N.

Fixpoint lstrip (s : string) : string :=
  match s with
  | "" => ""
  | String c rest => if isspace c then lstrip rest else s
  end.

Fixpoint rstrip (s : string) : string :=
  match s with
  | "" => ""
  | String c rest =>
      match rstrip rest with
      | "" => if isspace c then "" else String c ""
      | rest' => String c rest'
      end
  end.

(** [s.strip()] *)
Definition strip (s : string) : string := rstrip (lstrip s).

(** [s.split(sep)] for a separator of one character: never the empty list. *)
Fixpoint split (sep : ascii) (s : string) : list string :=
  match s with
  | "" => [""]
  | String c rest =>
      if Ascii.eqb c sep then "" :: split sep rest
      else match split sep rest with
           | [] => [String c ""]
           | field :: fields => String c field :: fields
           end
  end.

(** [key.lower()] on the letters of a header name. *)
Definition lower_ascii (c : ascii) : ascii :=
  let n := N_of_ascii c in
  if ((65 <=? n) && (n <=? 90))%N then ascii_of_N (n + 32) else c.

Fixpoint lower (s : string) : string :=
  match s with
  | "" => ""
  | String c rest => String (lower_ascii c) (lower rest)
  end.

(** [request.client]: the peer of the connection. *)
Record Address := {
  host : string;
  port : Z
}.

(** The request metadata read by [get_client_ip]: the header lines in the
    order received, their names in lower case as the server delivers them, and
    the peer, if known. *)
Record Request := {
  headers : list (string * string);
  client : option Address
}.

(** [request.headers.get(key)]: the value of the first line whose name is
    [key] in lower case, or [None]. *)
Definition headers_get (key : string) (hs : list (string * string)) : option string :=
  snd <$> List.find (λ line, String.eqb (fst line) (lower key)) hs.

(** Truth value of [x] in [if x:] for [x] a string or [None]. *)
Definition truthy (x : option string) : bool :=
  match x with
  | None | Some "" => false
  | Some _ => true
  end.

Definition get_client_ip (request : Request) : string :=
  (* Check for forwarded IP first (for proxies/load balancers) *)
  let forwarded_for := headers_get "X-Forwarded-For" (headers request) in
  if truthy forwarded_for then
    strip (nth 0 (split "," (default "" forwarded_for)) "")
  else
    (* Check for real IP header *)
    let real_ip := headers_get "X-Real-IP" (headers request) in
    if truthy real_ip then default "" real_ip
    else
      (* Fallback to direct client IP *)
      match client request with
      | Some peer => host peer
      | None => "unknown"
      end.

Local Close Scope string_scope.

(** ** Notions used in the statements *)

(** The answer of a check, when it returns. *)
Definition answer {S A} (o : outcome S (bool * A)) : option bool :=
  match o with
  | Returned (allowed, _) => Some allowed
  | Raised _ _ => None
  end.

(** The answers of a run, when it returns. *)
Definition answers {S A} (o : outcome S (list bool * A)) : option (list bool) :=
  match o with
  | Returned (allowed, _) => Some allowed
  | Raised _ _ => None
  end.

(** The entries of a list that a check at [now] on the in-process store
    still counts. *)
Definition in_window (cfg : Config) (now : Z) (l : list Z) : list Z :=
  filter (λ req_time, now - req_time < RATE_LIMIT_WINDOW cfg) l.

(** Of the answers to [calls], those given to the key [k]. *)
Fixpoint answers_for (k : string) (calls : list (string * Z)) (given : list bool) : list bool :=
  match calls, given with
  | (k', _) :: calls', a :: given' =>
      if decide (k' = k) then a :: answers_for k calls' given'
      else answers_for k calls' given'
  | _, _ => []
  end.

(** The times at which [calls] check the key [k]. *)
Definition times_for (k : string) (calls : list (string * Z)) : list Z :=
  (filter (λ c, c.1 = k) calls).*2.

(** How many answers are [true]. *)
Definition granted (given : list bool) : Z :=
  Z.of_nat (length (filter (λ b, b = true) given)).

(** Any two of the times are less than one window apart. *)
Definition spread (cfg : Config) (ts : list Z) : Prop :=
  Forall (λ x, Forall (λ y, x - y < RATE_LIMIT_WINDOW cfg) ts) ts.

(** Any two of the times are at most one window apart: they lie in a closed
    interval as long as the window. *)
Definition spread_closed (cfg : Config) (ts : list Z) : Prop :=
  Forall (λ x, Forall (λ y, x - y ≤ RATE_LIMIT_WINDOW cfg) ts) ts.

(** The answers to [m] successive checks of a key that holds [n] counted
    entries and loses none of them. *)
Fixpoint expected (cfg : Config) (n : nat) (m : nat) : list bool :=
  match m with
  | O => []
  | S m' => bool_decide (Z.of_nat n < RATE_LIMIT_REQUESTS cfg) :: expected cfg (S n) m'
  end.

(** No stored list is longer than the limit. *)
Definition bounded (cfg : Config) (s : gmap string (list Z)) : Prop :=
  ∀ k l, s !! k = Some l → Z.of_nat (length l) ≤ Z.max 0 (RATE_LIMIT_REQUESTS cfg).

(** The sorted set under a Redis key, empty when the key is not there. *)
Definition zset (key : string) (db : gmap string Redis.value) : gmap string Z :=
  default ∅ (Redis.members <$> db !! key).

(** The Redis key carries no deadline that has passed. *)
Definition live (now : Z) (key : string) (db : gmap string Redis.value) : Prop :=
  ∀ v d, db !! key = Some v → Redis.expire_at v = Some d → now < d.

(** A header is there, whatever its value. *)
Definition present (x : option string) : bool :=
  match x with
  | Some _ => true
  | None => false
  end.

(** Following the spec's words: the order of priority of [get_client_ip] with
    each header taken whenever it is present. *)
Definition client_key_by_presence (request : Request) : string :=
  let forwarded_for := headers_get "X-Forwarded-For" (headers request) in
  if present forwarded_for then
    strip (nth 0 (split "," (default ""%string forwarded_for)) ""%string)
  else
    let real_ip := headers_get "X-Real-IP" (headers request) in
    if present real_ip then default ""%string real_ip
    else match client request with
         | Some peer => host peer
         | None => "unknown"%string
         end.

(** The characters of a string are all white space. *)
Fixpoint blank (s : string) : bool :=
  match s with
  | EmptyString => true
  | String c rest => isspace c && blank rest
  end.

Definition first_char (s : string) : option ascii :=
  match s with
  | EmptyString => None
  | String c _ => Some c
  end.

Fixpoint last_char (s : string) : option ascii :=
  match s with
  | EmptyString => None
  | String c EmptyString => Some c
  | String _ rest => last_char rest
  end.

Fixpoint occurs (c : ascii) (s : string) : bool :=
  match s with
  | EmptyString => false
  | String c' rest => Ascii.eqb c' c || occurs c rest
  end.

(** The stores that the process has in [w'] are those that it has in [w]. *)
Definition same_stores (w' w : world) : Prop :=
  (redis_client w' = None ↔ redis_client w = None)
  ∧ (SessionLocal w' = None ↔ SessionLocal w = None).

(** The key and time of each request. *)
Definition keyed_times (calls : list call) : list (string * Z) :=
  (λ c, (call_ip c, call_time c)) <$> calls.

(** The times of the rows that the table holds for a key. *)
Definition stamps_for (k : string) (tb : table) : list Z :=
  RateLimitRecord.timestamp <$> filter (λ r, RateLimitRecord.client_ip r = k) (rows tb).

(** The answers given to the [n] checks of one key keep the quota: each
    check is answered, at most [RATE_LIMIT_REQUESTS] of them with [true], and
    all from the ([RATE_LIMIT_REQUESTS]+1)-th on with [false]. *)
Definition quota_kept (cfg : Config) (n : nat) (given : list bool) : Prop :=
  length given = n
  ∧ granted given ≤ RATE_LIMIT_REQUESTS cfg
  ∧ ∀ i b, RATE_LIMIT_REQUESTS cfg ≤ Z.of_nat i → given !! i = Some b → b = false.

(** ** Settings, states and requests of the examples *)

Definition quota (requests window : Z) : Config :=
  {| RATE_LIMIT_REQUESTS := requests; RATE_LIMIT_WINDOW := window |}.

(** The process right after start-up, with or without a Redis client and a
    session factory, and nothing stored. *)
Definition started (with_redis with_database : bool) : world :=
  {| redis_client := if with_redis then Some ∅ else None;
     SessionLocal := if with_database then Some {| rows := []; next_id := 1 |} else None;
     rate_limit_storage := ∅ |}.

(** Redis cannot be reached. *)
Definition redis_down : faults := {| redis_fault := Some AtSend; db_fault := None |}.

(** Redis runs the transaction, and its replies do not arrive. *)
Definition redis_reply_lost : faults := {| redis_fault := Some AtReply; db_fault := None |}.

Definition request_at (env : faults) (client_ip : string) (current_time : Z) : call :=
  {| call_env := env; call_ip := client_ip; call_time := current_time |}.

Definition ip_a : string := "1.2.3.4".
Definition ip_b : string := "5.6.7.8".

(** ** Further notions of the limiter *)

(** Of the times at which [calls] check the key [k], those whose check was
    answered [true]. *)
Fixpoint granted_times (k : string) (calls : list (string * Z)) (given : list bool) : list Z :=
  match calls, given with
  | (k', t) :: calls', a :: given' =>
      if decide (k' = k) then
        if a then t :: granted_times k calls' given' else granted_times k calls' given'
      else granted_times k calls' given'
  | _, _ => []
  end.

(** The store that [check_rate_limit] consults in [w] raises under [env]
    before anything is committed, or there is no such store. *)
Definition falls_back (w : world) (env : faults) : bool :=
  match redis_client w, SessionLocal w with
  | Some _, _ => bool_decide (redis_fault env = Some AtSend)
  | None, Some _ =>
      bool_decide (db_fault env = Some AtConnect ∨ db_fault env = Some AtDelete
                   ∨ db_fault env = Some AtCount)
  | None, None => true
  end.

(** ** Texts

    A Python [str] that comes from a request body or from the completion
    service is a list of code points. *)

Definition text : Type := list N.

(** The text of a literal of the source. *)
Definition utext (s : string) : text := N_of_ascii <$> String.list_ascii_of_string s.

(** [c.isspace()] for a code point. *)
Definition unicode_isspace (c : N) : bool :=
  ((9 <=? c) && (c <=? 13) || (28 <=? c) && (c <=? 32) || (c =? 133) || (c =? 160)
   || (c =? 5760) || (8192 <=? c) && (c <=? 8202) || (c =? 8232) || (c =? 8233)
   || (c =? 8239) || (c =? 8287) || (c =? 12288))%N.

Fixpoint text_lstrip (s : text) : text :=
  match s with
  | [] => []
  | c :: rest => if unicode_isspace c then text_lstrip rest else s
  end.

(** [s.strip()] *)
Definition text_strip (s : text) : text :=
  reverse (text_lstrip (reverse (text_lstrip s))).

(** [s.replace(old, new)] for [old] not empty, scanning from the left: where
    [old] starts, [new] is put and the characters of [old] are skipped. *)
Fixpoint replace_from (old new : text) (skip : nat) (s : text) : text :=
  match s with
  | [] => []
  | c :: rest =>
      match skip with
      | S skip' => replace_from old new skip' rest
      | O =>
          if bool_decide (old `prefix_of` s)
          then new ++ replace_from old new (length old - 1) rest
          else c :: replace_from old new 0 rest
      end
  end.

Definition text_replace (old new : text) (s : text) : text := replace_from old new 0 s.

(** ** Constants of the service *)

Definition UI_PROMPTS : list text := utext <$> [
  "Create a beautiful landing page for a coffee shop with warm colors and cozy atmosphere";
  "Design a modern portfolio website for a photographer with stunning gallery layout";
  "Build a sleek dashboard interface for a fitness tracking app with charts and metrics";
  "Create a minimalist blog homepage with dark theme and elegant typography";
  "Design a product showcase page for eco-friendly products with green theme";
  "Build a creative agency homepage with bold typography and animated elements";
  "Create a weather app interface with animated weather icons and gradients";
  "Design a music player interface with vinyl record aesthetic and controls";
  "Build a cryptocurrency dashboard with real-time charts and modern design";
  "Create a food delivery app interface with appetizing food images";
  "Design a travel booking website with beautiful destination photos";
  "Build a social media dashboard with card-based layout and interactions";
  "Create a gaming website with neon colors and futuristic design";
  "Design a meditation app interface with calming colors and zen elements";
  "Build a real estate website with property listings and modern layout"
]%string.

Definition AVAILABLE_MODELS : list text :=
  utext <$> ["qwen-3-coder-480b"; "gpt-oss-120b"]%string.

(** ** The handlers

    A handler runs from its first line to its last without giving way to
    another request: the one call that it awaits, [call_cerebras_api], holds
    no [await] of its own.  What the outside decides during a request is
    given to the handler as an [environment]. *)

(** An entry of [ui_history]. *)
Record ui_entry := {
  entry_prompt : text;
  entry_model : text;
  html_length : nat;
  entry_timestamp : Z
}.

(** The module-level state that the handlers share. *)
Record app := {
  limiter : world;
  ui_history : list ui_entry
}.

Record environment := {
  env_faults : faults;              (* what the stores of the limiter do *)
  env_time : Z;                     (* [time.time()] *)
  env_prompt_choice : nat;          (* index drawn by [random.choice(UI_PROMPTS)] *)
  env_model_choice : nat;           (* index drawn by [random.choice(AVAILABLE_MODELS)] *)
  env_completion : option text;     (* content of the completion, [None] when
                                       anything in the call raises *)
  env_loop_time : Z;                (* [asyncio.get_event_loop().time()] *)
  env_ping : bool;                  (* [redis_client.ping()] returns *)
  env_select_1 : bool               (* the probe of [/health], [SessionLocal()],
                                       [db.execute("SELECT 1")], [db.close()],
                                       returns *)
}.

(** What a handler sends back. *)
Inductive content :=
| Html (html : text)                                   (* [HTMLResponse(content=html)] *)
| FallbackUi                                           (* the page of [get_fallback_ui] *)
| Generated (html prompt model : text)                 (* [GenerateResponse] *)
| History (history : list ui_entry) (total : nat)
| Models (models : list text)
| Prompt (prompt : text).

Inductive reply :=
| Response (body : content)                            (* status 200 *)
| HTTPException (status_code : Z) (detail : string)
| RequestValidationError                               (* status 422, from the framework *)
| Unhandled (e : exn).

Definition set_limiter (w : world) (st : app) : app :=
  {| limiter := w; ui_history := ui_history st |}.

Definition set_history (h : list ui_entry) (st : app) : app :=
  {| limiter := limiter st; ui_history := h |}.

(** [random.choice(l)]: the element at the index drawn, which is below
    [len(l)]. *)
Definition choice (i : nat) (l : list text) : text := nth i l [].

Definition rate_limit_detail (cfg : Config) : string :=
  "Rate limit exceeded. Maximum " +:+ pretty (RATE_LIMIT_REQUESTS cfg)
  +:+ " requests per " +:+ pretty (RATE_LIMIT_WINDOW cfg) +:+ " seconds.".

(** The lines with which every limited handler opens:
    [client_ip = get_client_ip(request)], then
    [if not check_rate_limit(client_ip): raise HTTPException(status_code=429, ..)]. *)
Definition rate_limit_gate (cfg : Config) (env : environment) (request : Request)
    (st : app) (rest : app → reply * app) : reply * app :=
  let client_ip := get_client_ip request in
  match check_rate_limit cfg (env_faults env) client_ip (env_time env) (limiter st) with
  | Raised e w' => (Unhandled e, set_limiter w' st)
  | Returned (allowed, w') =>
      if allowed then rest (set_limiter w' st)
      else (HTTPException 429 (rate_limit_detail cfg), set_limiter w' st)
  end.

(** The text that [call_cerebras_api] makes of the content of a completion. *)
Definition clean_html (generated_content : text) : text :=
  text_strip (text_replace (utext "```") []
                (text_replace (utext "```html") [] generated_content)).

(** [call_cerebras_api]: the cleaned content, or [HTTPException(503)] when
    anything in its [try] raises; [inl] is the value returned, [inr] the
    exception raised.  The prompt and the model travel to the completion
    service, whose answer is in the environment. *)
Definition call_cerebras_api (env : environment) (prompt model : text)
    : text + (Z * string) :=
  match env_completion env with
  | Some generated_content => inl (clean_html generated_content)
  | None => inr (503, "Failed to generate UI"%string)
  end.

Definition generate_random_ui (cfg : Config) (env : environment) (request : Request)
    (st : app) : reply * app :=
  rate_limit_gate cfg env request st (λ st,
    (* try: *)
    let random_prompt := choice (env_prompt_choice env) UI_PROMPTS in
    let random_model := choice (env_model_choice env) AVAILABLE_MODELS in
    match call_cerebras_api env random_prompt random_model with
    | inl html_content =>
        (* Store in history *)
        let ui_entry := {| entry_prompt := random_prompt; entry_model := random_model;
                           html_length := length html_content;
                           entry_timestamp := env_loop_time env |} in
        let history := ui_history st ++ [ui_entry] in
        (* Keep only last 20 entries *)
        let history := if bool_decide (20 < length history)%nat then drop 1 history
                       else history in
        (Response (Html html_content), set_history history st)
    | inr _ =>
        (* except Exception *)
        (Response FallbackUi, st)
    end).

(** The body of a request to [/api/generate]; its temperature only travels
    on to the completion service. *)
Record GenerateRequest := {
  prompt : text;
  model : text
}.

Definition generate_custom_ui (cfg : Config) (env : environment) (request : GenerateRequest)
    (http_request : Request) (st : app) : reply * app :=
  rate_limit_gate cfg env http_request st (λ st,
    if bool_decide (text_strip (prompt request) = []) then
      (HTTPException 400 "Prompt cannot be empty", st)
    else if bool_decide (model request ∉ AVAILABLE_MODELS) then
      (HTTPException 400 "Model must be one of: ['qwen-3-coder-480b', 'gpt-oss-120b']", st)
    else
      match call_cerebras_api env (prompt request) (model request) with
      | inl html_content =>
          (* Store in history *)
          let ui_entry := {| entry_prompt := prompt request; entry_model := model request;
                             html_length := length html_content;
                             entry_timestamp := env_loop_time env |} in
          (Response (Generated html_content (prompt request) (model request)),
           set_history (ui_history st ++ [ui_entry]) st)
      | inr (status_code, detail) =>
          (* except HTTPException: raise *)
          (HTTPException status_code detail, st)
      end).

(** [ui_history[-10:]] *)
Definition last_ten (h : list ui_entry) : list ui_entry := drop (length h - 10) h.

Definition get_ui_history (cfg : Config) (env : environment) (request : Request)
    (st : app) : reply * app :=
  rate_limit_gate cfg env request st (λ st,
    (Response (History (last_ten (ui_history st)) (length (ui_history st))), st)).

Definition get_available_models (cfg : Config) (env : environment) (request : Request)
    (st : app) : reply * app :=
  rate_limit_gate cfg env request st (λ st, (Response (Models AVAILABLE_MODELS), st)).

Definition get_random_prompt (cfg : Config) (env : environment) (request : Request)
    (st : app) : reply * app :=
  rate_limit_gate cfg env request st (λ st,
    (Response (Prompt (choice (env_prompt_choice env) UI_PROMPTS)), st)).

(** ** [health_check] *)

Inductive store_status := not_available | connected | disconnected.

Global Instance store_status_eq_dec : EqDecision store_status.
Proof. solve_decision. Defined.

Record health := {
  status : string;
  api_key_configured : bool;
  redis_status : store_status;
  database_status : store_status;
  requests_per_window : Z;
  window_seconds : Z;
  storage_type : backend;
  total_generated : nat
}.

Definition health_check (cfg : Config) (CEREBRAS_API_KEY : option string)
    (env : environment) (st : app) : health :=
  let redis_status :=
    if redis_client (limiter st) is Some _ then
      if env_ping env then connected else disconnected
    else not_available in
  let db_status :=
    if SessionLocal (limiter st) is Some _ then
      if env_select_1 env then connected else disconnected
    else not_available in
  (* Determine which storage is being used *)
  let storage_type :=
    if bool_decide (is_Some (redis_client (limiter st)) ∧ redis_status = connected)
    then Shared
    else if bool_decide (is_Some (SessionLocal (limiter st)) ∧ db_status = connected)
    then Relational
    else Memory in
  {| status := "healthy";
     api_key_configured := truthy CEREBRAS_API_KEY;
     redis_status := redis_status;
     database_status := db_status;
     requests_per_window := RATE_LIMIT_REQUESTS cfg;
     window_seconds := RATE_LIMIT_WINDOW cfg;
     storage_type := storage_type;
     total_generated := length (ui_history st) |}.

(** ** Requests one after the other *)

(** A request to one of the five limited endpoints.  The body of a post to
    [/api/generate] is parsed by the framework before [generate_custom_ui]
    is called: [PostGenerate] carries a body that is a [GenerateRequest],
    [PostGenerateInvalid] stands for a post whose body is not. *)
Inductive request :=
| GetRoot (r : Request)
| PostGenerate (body : GenerateRequest) (r : Request)
| PostGenerateInvalid (r : Request)
| GetHistory (r : Request)
| GetModels (r : Request)
| GetRandomPrompt (r : Request).

Definition handle (cfg : Config) (env : environment) (q : request) (st : app) : reply * app :=
  match q with
  | GetRoot r => generate_random_ui cfg env r st
  | PostGenerate body r => generate_custom_ui cfg env body r st
  | PostGenerateInvalid r =>
      (* answered by the framework; the handler does not run *)
      (RequestValidationError, st)
  | GetHistory r => get_ui_history cfg env r st
  | GetModels r => get_available_models cfg env r st
  | GetRandomPrompt r => get_random_prompt cfg env r st
  end.

Fixpoint serve (cfg : Config) (qs : list (environment * request)) (st : app)
    : list reply * app :=
  match qs with
  | [] => ([], st)
  | (env, q) :: qs' =>
      let '(r, st1) := handle cfg env q st in
      let '(rs, st2) := serve cfg qs' st1 in
      (r :: rs, st2)
  end.

(** The request metadata that come with a request. *)
Definition metadata (q : request) : Request :=
  match q with
  | GetRoot r | PostGenerate _ r | PostGenerateInvalid r
  | GetHistory r | GetModels r | GetRandomPrompt r => r
  end.

(** The request is passed to its handler. *)
Definition reaches_handler (q : request) : bool :=
  match q with
  | PostGenerateInvalid _ => false
  | _ => true
  end.

(** The checks that a list of requests asks of the limiter: one for each
    request that reaches its handler, with the key and time of the request. *)
Definition calls_of (qs : list (environment * request)) : list call :=
  (λ eq, request_at (env_faults eq.1) (get_client_ip (metadata eq.2)) (env_time eq.1))
    <$> filter (λ eq, reaches_handler eq.2 = true) qs.

(** Of the replies to a list of requests, those to the requests that reach
    their handler. *)
Definition handler_replies (qs : list (environment * request)) (replies : list reply)
    : list reply :=
  (filter (λ p, reaches_handler p.1.2 = true) (zip qs replies)).*2.

(** The number of backticks with which a text begins. *)
Fixpoint lead (s : text) : nat :=
  match s with
  | c :: rest => if bool_decide (c = 96%N) then S (lead rest) else O
  | [] => O
  end.

(** What the lines after the gate of the handler of [q] do: they never answer
    429, leave the limiter alone, and add at most one entry to the history,
    none beyond twenty unless [q] is a request to [/api/generate]. *)
Definition after_gate (cfg : Config) (q : request) (rest : app → reply * app) : Prop :=
  (∀ st, (rest st).1 ≠ HTTPException 429 (rate_limit_detail cfg))
  ∧ (∀ st, limiter (rest st).2 = limiter st)
  ∧ (∀ st, length (ui_history st) ≤ length (ui_history (rest st).2)
           ≤ S (length (ui_history st)))%nat
  ∧ (∀ st, (∀ body r, q ≠ PostGenerate body r) →
           length (ui_history st) ≤ 20 → length (ui_history (rest st).2) ≤ 20)%nat.

(** A request to an endpoint other than [/api/generate]. *)
Definition reads_or_root (q : request) : bool :=
  match q with
  | PostGenerate _ _ | PostGenerateInvalid _ => false
  | _ => true
  end.

(** * Properties *)

(** ** The in-process store *)

Section Memory.
Context (cfg : Config).
Local Abbreviation L := (RATE_LIMIT_REQUESTS cfg).
Local Abbreviation W := (RATE_LIMIT_WINDOW cfg).

Lemma getitem_insert k l (s : gmap string (list Z)) : getitem (<[k := l]> s) k = l.
Proof. unfold getitem. by rewrite lookup_insert_eq. Qed.

Lemma getitem_insert_ne k k' l (s : gmap string (list Z)) :
  k ≠ k' → getitem (<[k := l]> s) k' = getitem s k'.
Proof. intros. unfold getitem. by rewrite lookup_insert_ne. Qed.

(** One check, with the dictionary read once. *)
Lemma memory_unfold k t s :
  check_rate_limit_memory cfg k t s =
    let kept := in_window cfg t (getitem s k) in
    if bool_decide (Z.of_nat (length kept) >= L) then (false, <[k := kept]> s)
    else (true, <[k := kept ++ [t]]> s).
Proof.
  unfold check_rate_limit_memory, in_window. cbn zeta.
  rewrite getitem_insert. case_bool_decide; [done|].
  by rewrite insert_insert_eq.
Qed.

Lemma memory_answer k t s :
  (check_rate_limit_memory cfg k t s).1
  = bool_decide (Z.of_nat (length (in_window cfg t (getitem s k))) < L).
Proof.
  rewrite memory_unfold. cbn zeta.
  case_bool_decide; cbn; symmetry;
    [apply bool_decide_eq_false_2 | apply bool_decide_eq_true_2]; lia.
Qed.

Lemma memory_other k k' t s :
  k' ≠ k → (check_rate_limit_memory cfg k t s).2 !! k' = s !! k'.
Proof.
  intros. rewrite memory_unfold. cbn zeta.
  case_bool_decide; cbn; by rewrite lookup_insert_ne.
Qed.

Lemma memory_getitem_other k k' t s :
  k' ≠ k → getitem (check_rate_limit_memory cfg k t s).2 k' = getitem s k'.
Proof. intros. unfold getitem. by rewrite memory_other. Qed.

Lemma memory_checks_other k calls s :
  Forall (λ c, c.1 ≠ k) calls → (memory_checks cfg calls s).2 !! k = s !! k.
Proof.
  revert s. induction calls as [|[k' t] calls IH]; intros s Hne; [done|].
  apply Forall_cons in Hne as [Hk Hne]. cbn in Hk. cbn.
  destruct (check_rate_limit_memory cfg k' t s) as [a s1] eqn:E.
  specialize (IH s1 Hne). destruct (memory_checks cfg calls s1) as [bs s2]. cbn in *.
  rewrite IH. replace s1 with (check_rate_limit_memory cfg k' t s).2 by by rewrite E.
  by apply memory_other.
Qed.

Lemma in_window_length t l : (length (in_window cfg t l) ≤ length l)%nat.
Proof. apply length_filter. Qed.

Lemma in_window_all t l : (∀ x, x ∈ l → t - x < W) → in_window cfg t l = l.
Proof.
  intros H. unfold in_window. induction l as [|x l IH]; [done|].
  rewrite filter_cons. rewrite decide_True; [|apply H; left].
  f_equal. apply IH. intros y Hy. apply H. by right.
Qed.

Lemma in_window_idem t l : in_window cfg t (in_window cfg t l) = in_window cfg t l.
Proof.
  apply in_window_all. intros x Hx. unfold in_window in Hx.
  by apply list_elem_of_filter in Hx as [? _].
Qed.

(** A rejected check stores the cleaned list and nothing more. *)
Lemma memory_rejected_keeps k t s :
  (check_rate_limit_memory cfg k t s).1 = false →
  in_window cfg t (getitem (check_rate_limit_memory cfg k t s).2 k)
  = in_window cfg t (getitem s k).
Proof.
  rewrite memory_unfold. cbn zeta. case_bool_decide; [|done]. intros _. cbn.
  rewrite getitem_insert. apply in_window_idem.
Qed.

(** *** The bound on the stored lists *)

Lemma bounded_step k t s : bounded cfg s → bounded cfg (check_rate_limit_memory cfg k t s).2.
Proof.
  intros Hs k' l'. rewrite memory_unfold. cbn zeta.
  pose proof (in_window_length t (getitem s k)) as Hlen.
  assert (Z.of_nat (length (getitem s k)) ≤ Z.max 0 L) as Hk.
  { unfold getitem. destruct (s !! k) as [l|] eqn:E; cbn; [by eapply Hs | lia]. }
  case_bool_decide; cbn; (destruct (decide (k' = k)) as [->|Hne];
    [rewrite lookup_insert_eq; intros [= <-] | rewrite lookup_insert_ne; [by apply Hs | done]]).
  - lia.
  - rewrite length_app. cbn. lia.
Qed.

Lemma bounded_checks calls s : bounded cfg s → bounded cfg (memory_checks cfg calls s).2.
Proof.
  revert s. induction calls as [|[k t] calls IH]; intros s Hs; [done|].
  cbn. pose proof (bounded_step k t s Hs) as H1.
  destruct (check_rate_limit_memory cfg k t s) as [a s1].
  specialize (IH s1 H1). by destruct (memory_checks cfg calls s1).
Qed.

(** *** Checks within one window *)

Lemma expected_full n m : L ≤ Z.of_nat n → expected cfg n m = replicate m false.
Proof.
  revert n. induction m as [|m IH]; intros n Hn; [done|].
  cbn. rewrite bool_decide_eq_false_2; [|lia]. f_equal. apply IH. lia.
Qed.

Lemma expected_lookup n m i b :
  expected cfg n m !! i = Some b → b = bool_decide (Z.of_nat (n + i) < L).
Proof.
  revert n i. induction m as [|m IH]; intros n i; [done|].
  destruct i as [|i]; cbn.
  - intros [= <-]. by rewrite Nat.add_0_r.
  - intros H. apply IH in H. rewrite H. by rewrite Nat.add_succ_r.
Qed.

Lemma expected_granted n m : granted (expected cfg n m) ≤ Z.max 0 (L - Z.of_nat n).
Proof.
  unfold granted. revert n. induction m as [|m IH]; intros n; [cbn; lia|].
  specialize (IH (S n)). cbn [expected]. rewrite filter_cons. case_decide as Hb.
  - apply bool_decide_eq_true in Hb. cbn [length]. lia.
  - lia.
Qed.

Lemma spread_elem ts : spread cfg ts ↔ ∀ x y, x ∈ ts → y ∈ ts → x - y < W.
Proof.
  unfold spread. rewrite Forall_forall. split.
  - intros H x y Hx Hy. specialize (H x Hx). rewrite Forall_forall in H. by apply H.
  - intros H x Hx. apply Forall_forall. intros y Hy. by apply H.
Qed.

Lemma spread_incl ts ts' : spread cfg ts → (∀ x, x ∈ ts' → x ∈ ts) → spread cfg ts'.
Proof. rewrite !spread_elem. intros Hsp Hin x y Hx Hy. apply Hsp; by apply Hin. Qed.

Lemma times_for_cons k k' t calls :
  times_for k ((k', t) :: calls)
  = if decide (k' = k) then t :: times_for k calls else times_for k calls.
Proof. unfold times_for. rewrite filter_cons. cbn [fst]. by case_decide. Qed.

(** While every time stays within the window of every other, nothing
    expires, and the answers to a key only depend on how many entries it
    holds. *)
Lemma answers_in_window k calls s :
  spread cfg (getitem s k ++ times_for k calls) →
  answers_for k calls (memory_checks cfg calls s).1
  = expected cfg (length (getitem s k)) (length (times_for k calls)).
Proof.
  revert s. induction calls as [|[k' t] calls IH]; intros s Hsp; [done|].
  cbn [memory_checks].
  destruct (check_rate_limit_memory cfg k' t s) as [a s1] eqn:E.
  destruct (memory_checks cfg calls s1) as [bs s2] eqn:E2.
  cbn [fst answers_for]. rewrite times_for_cons in Hsp |- *.
  destruct (decide (k' = k)) as [->|Hne].
  - cbn [length].
    rewrite memory_unfold in E. cbn zeta in E.
    rewrite in_window_all in E.
    2:{ intros x Hx. eapply spread_elem; [done|..]; rewrite elem_of_app, ?elem_of_cons; tauto. }
    case_bool_decide as Hfull; injection E as <- <-.
    + cbn [expected]. rewrite bool_decide_eq_false_2; [|lia]. f_equal.
      replace bs with (memory_checks cfg calls (<[k:=getitem s k]> s)).1 by by rewrite E2.
      rewrite IH.
      * rewrite getitem_insert. rewrite !expected_full; [done|lia..].
      * rewrite getitem_insert. eapply spread_incl; [done|].
        intros x. rewrite !elem_of_app, elem_of_cons. tauto.
    + cbn [expected]. rewrite bool_decide_eq_true_2; [|lia]. f_equal.
      replace bs with (memory_checks cfg calls (<[k:=getitem s k ++ [t]]> s)).1 by by rewrite E2.
      rewrite IH.
      * rewrite getitem_insert. rewrite length_app. cbn. by rewrite Nat.add_1_r.
      * rewrite getitem_insert. eapply spread_incl; [done|].
        intros x. rewrite !elem_of_app, !elem_of_cons, elem_of_nil. tauto.
  - replace bs with (memory_checks cfg calls s1).1 by by rewrite E2.
    rewrite IH.
    + replace s1 with (check_rate_limit_memory cfg k' t s).2 by by rewrite E.
      by rewrite memory_getitem_other.
    + replace s1 with (check_rate_limit_memory cfg k' t s).2 by by rewrite E.
      by rewrite memory_getitem_other.
Qed.

End Memory.

(** ** The Redis store, the database and the fallback *)

Section Stores.
Context (cfg : Config).
Local Abbreviation L := (RATE_LIMIT_REQUESTS cfg).
Local Abbreviation W := (RATE_LIMIT_WINDOW cfg).

(** *** Redis commands *)

Lemma purge_live now key db : live now key (Redis.purge now key db).
Proof.
  unfold live, Redis.purge. intros v d.
  destruct (db !! key) as [[ms [dl|]]|] eqn:E; cbn.
  - case_bool_decide.
    + by rewrite lookup_delete_eq.
    + rewrite E. cbn. intros [= <-] [= <-]. lia.
  - rewrite E. by intros [= <-].
  - by rewrite E.
Qed.

Lemma purge_id now key db : live now key db → Redis.purge now key db = db.
Proof.
  unfold live, Redis.purge. intros Hl.
  destruct (db !! key) as [[ms [dl|]]|] eqn:E; cbn; [|done..].
  specialize (Hl _ dl eq_refl eq_refl). rewrite bool_decide_eq_false_2; [done|lia].
Qed.

Lemma purge_other now key key' db : key' ≠ key → Redis.purge now key db !! key' = db !! key'.
Proof.
  intros. unfold Redis.purge.
  destruct (db !! key) as [[ms [dl|]]|]; [|done..].
  case_bool_decide; [by rewrite lookup_delete_ne|done].
Qed.

Lemma zrem_live now key lo hi db :
  live now key db → live now key (Redis.zremrangebyscore key lo hi db).2.
Proof.
  unfold live, Redis.zremrangebyscore. intros Hl v d.
  destruct (db !! key) as [v0|] eqn:E; cbn.
  - case_bool_decide; cbn.
    + by rewrite lookup_delete_eq.
    + rewrite lookup_insert_eq. intros [= <-]. cbn. by apply Hl.
  - rewrite E. done.
Qed.

Lemma zrem_zset key lo hi db :
  zset key (Redis.zremrangebyscore key lo hi db).2 = Redis.outside_range lo hi (zset key db).
Proof.
  unfold zset, Redis.zremrangebyscore.
  destruct (db !! key) as [v0|] eqn:E; cbn.
  - case_bool_decide as Hemp; cbn.
    + by rewrite lookup_delete_eq.
    + by rewrite lookup_insert_eq.
  - rewrite E. cbn. unfold Redis.outside_range. by rewrite map_filter_empty.
Qed.

Lemma zrem_other key key' lo hi db :
  key' ≠ key → (Redis.zremrangebyscore key lo hi db).2 !! key' = db !! key'.
Proof.
  intros. unfold Redis.zremrangebyscore. destruct (db !! key); [|done].
  case_bool_decide; cbn; [by rewrite lookup_delete_ne | by rewrite lookup_insert_ne].
Qed.

Lemma zcard_zset key db : Redis.zcard key db = Z.of_nat (size (zset key db)).
Proof. unfold Redis.zcard, zset. destruct (db !! key); cbn; [done|by rewrite map_size_empty]. Qed.

Lemma zadd_other key key' m sc db :
  key' ≠ key → (Redis.zadd key m sc db).2 !! key' = db !! key'.
Proof.
  intros. unfold Redis.zadd. destruct (db !! key); cbn; by rewrite lookup_insert_ne.
Qed.

Lemma expire_other now key key' secs db :
  key' ≠ key → (Redis.expire now key secs db).2 !! key' = db !! key'.
Proof.
  intros. unfold Redis.expire. destruct (db !! key); [|done].
  case_bool_decide; cbn; [by rewrite lookup_delete_ne | by rewrite lookup_insert_ne].
Qed.

Lemma exec_other now c key' db :
  key' ≠ Redis.key_of c → (Redis.exec_command now c db).2 !! key' = db !! key'.
Proof.
  intros Hne. unfold Redis.exec_command.
  destruct c; cbn in Hne |- *.
  - rewrite zrem_other; [|done]. by rewrite purge_other.
  - by rewrite purge_other.
  - rewrite zadd_other; [|done]. by rewrite purge_other.
  - rewrite expire_other; [|done]. by rewrite purge_other.
Qed.

(** The count that the pipeline of a check reads. *)
Lemma pipeline_count key now lo hi m sc secs db :
  nth 1 (Redis.execute now
           [Redis.ZREMRANGEBYSCORE key lo hi; Redis.ZCARD key;
            Redis.ZADD key m sc; Redis.EXPIRE key secs] db).1 0
  = Z.of_nat (size (Redis.outside_range lo hi (zset key (Redis.purge now key db)))).
Proof.
  cbn [Redis.execute]. unfold Redis.exec_command at 1. cbn [Redis.key_of].
  destruct (Redis.zremrangebyscore key lo hi (Redis.purge now key db)) as [r1 db1] eqn:E1.
  unfold Redis.exec_command at 1. cbn [Redis.key_of].
  assert (live now key db1) as Hl.
  { replace db1 with (Redis.zremrangebyscore key lo hi (Redis.purge now key db)).2 by by rewrite E1.
    apply zrem_live, purge_live. }
  rewrite (purge_id _ _ _ Hl).
  destruct (Redis.exec_command now (Redis.ZADD key m sc) db1) as [r3 db3].
  destruct (Redis.exec_command now (Redis.EXPIRE key secs) db3) as [r4 db4].
  cbn. rewrite zcard_zset.
  replace db1 with (Redis.zremrangebyscore key lo hi (Redis.purge now key db)).2 by by rewrite E1.
  by rewrite zrem_zset.
Qed.

Lemma redis_answer env k t w db :
  redis_client w = Some db → redis_fault env = None →
  answer (check_rate_limit_redis cfg env k t w)
  = Some (bool_decide
      (Z.of_nat (size (Redis.outside_range 0 (t - W)
                         (zset ("rate_limit:" +:+ k) (Redis.purge t ("rate_limit:" +:+ k) db)))) < L)).
Proof.
  intros Hdb Hf. unfold check_rate_limit_redis, redis_try. rewrite Hdb, Hf.
  pose proof (pipeline_count ("rate_limit:" +:+ k) t 0 (t - W) (str t) t W db) as Hc.
  destruct (Redis.execute _ _ db) as [results db'].
  cbn in Hc |- *. by rewrite Hc.
Qed.



Lemma zadd_zset key m sc db :
  zset key (Redis.zadd key m sc db).2 = <[m := sc]> (zset key db).
Proof.
  unfold zset, Redis.zadd. destruct (db !! key) as [v|]; cbn; rewrite lookup_insert_eq; cbn;
    [done|by rewrite insert_empty].
Qed.

Lemma zadd_live now key m sc db :
  live now key db → live now key (Redis.zadd key m sc db).2.
Proof.
  unfold live, Redis.zadd. intros Hl v d.
  destruct (db !! key) as [v0|] eqn:E; cbn; rewrite lookup_insert_eq; intros [= <-]; cbn; [|done].
  by apply Hl.
Qed.

Lemma expire_zset now key secs db :
  0 < secs → zset key (Redis.expire now key secs db).2 = zset key db.
Proof.
  intros. unfold zset, Redis.expire. destruct (db !! key) as [v|] eqn:E; cbn.
  - rewrite bool_decide_eq_false_2 by lia. cbn. by rewrite lookup_insert_eq.
  - by rewrite E.
Qed.

(** The sorted set that the pipeline of a check leaves under its key. *)
Lemma pipeline_zset key now lo hi m sc secs db :
  0 < secs →
  zset key (Redis.execute now
              [Redis.ZREMRANGEBYSCORE key lo hi; Redis.ZCARD key;
               Redis.ZADD key m sc; Redis.EXPIRE key secs] db).2
  = <[m := sc]> (Redis.outside_range lo hi (zset key (Redis.purge now key db))).
Proof.
  intros Hsecs. cbn [Redis.execute]. unfold Redis.exec_command at 1. cbn [Redis.key_of].
  pose proof (zrem_zset key lo hi (Redis.purge now key db)) as Hz.
  pose proof (zrem_live now key lo hi _ (purge_live now key db)) as Hl.
  destruct (Redis.zremrangebyscore key lo hi (Redis.purge now key db)) as [r1 db1].
  cbn [snd] in Hz, Hl.
  unfold Redis.exec_command at 1. cbn [Redis.key_of]. rewrite (purge_id _ _ _ Hl).
  unfold Redis.exec_command at 1. cbn [Redis.key_of]. rewrite (purge_id _ _ _ Hl).
  pose proof (zadd_zset key m sc db1) as Hz3.
  pose proof (zadd_live now key m sc db1 Hl) as Hl3.
  destruct (Redis.zadd key m sc db1) as [r3 db3]. cbn [snd] in Hz3, Hl3.
  unfold Redis.exec_command at 1. cbn [Redis.key_of]. rewrite (purge_id _ _ _ Hl3).
  pose proof (expire_zset now key secs db3 Hsecs) as Hz4.
  destruct (Redis.expire now key secs db3) as [r4 db4]. cbn [snd] in Hz4 |- *.
  by rewrite Hz4, Hz3, Hz.
Qed.

(** A check that Redis answers stores its time, whatever the answer. *)
Lemma redis_always_records env k t w db :
  0 < W → redis_client w = Some db → redis_fault env = None →
  ∃ b db', check_rate_limit_redis cfg env k t w = Returned (b, set_redis db' w)
           ∧ zset ("rate_limit:" +:+ k) db' !! str t = Some t.
Proof.
  intros HW Hdb Hf. unfold check_rate_limit_redis, redis_try. rewrite Hdb, Hf.
  pose proof (pipeline_zset ("rate_limit:" +:+ k) t 0 (t - W) (str t) t W db HW) as Hz.
  destruct (Redis.execute _ _ db) as [results db']. cbn [snd] in Hz. cbn.
  eexists _, db'. split; [done|]. rewrite Hz. by rewrite lookup_insert_eq.
Qed.

(** *** The database *)

Lemma count_after_delete k cutoff rs :
  count_for k (delete_expired k cutoff rs)
  = Z.of_nat (length (filter (λ r, RateLimitRecord.client_ip r = k
                                   ∧ ¬ RateLimitRecord.timestamp r < cutoff) rs)).
Proof.
  unfold count_for, delete_expired. f_equal. f_equal.
  induction rs as [|r rs IH]; [done|].
  rewrite !filter_cons. repeat case_decide; rewrite ?filter_cons; repeat case_decide;
    try (exfalso; tauto); by rewrite IH.
Qed.

Lemma database_answer env k t w tb :
  SessionLocal w = Some tb → db_fault env = None →
  answer (check_rate_limit_database cfg env k t w)
  = Some (bool_decide (count_for k (delete_expired k (t - W) (rows tb)) < L)).
Proof.
  intros Htb Hf. unfold check_rate_limit_database, database_try. rewrite Htb, Hf.
  rewrite !(bool_decide_eq_false_2 (None = Some _)) by done.
  case_bool_decide; cbn; f_equal; symmetry;
    [apply bool_decide_eq_false_2 | apply bool_decide_eq_true_2]; lia.
Qed.

Lemma database_rejects env k t w :
  (∃ w', database_try cfg env k t w = Returned (false, w')) →
  database_try cfg env k t w = Returned (false, w).
Proof.
  intros [w' H]. unfold database_try, try_finally in *.
  destruct (SessionLocal w); [|done].
  repeat (case_bool_decide; try done).
Qed.

(** *** Fallback and totality *)

Lemma same_stores_refl w : same_stores w w.
Proof. by split. Qed.

Lemma memory_check_stores k t w :
  redis_client (memory_check cfg k t w).2 = redis_client w
  ∧ SessionLocal (memory_check cfg k t w).2 = SessionLocal w.
Proof. unfold memory_check. by destruct (check_rate_limit_memory _ _ _ _). Qed.

(** An exception leaves the Redis check with the table and the dictionary as
    they were, and with Redis as it was unless the transaction has run and
    its replies were lost. *)
Lemma redis_try_raised env k t w e w' :
  redis_try cfg env k t w = Raised e w' →
  same_stores w' w
  ∧ SessionLocal w' = SessionLocal w
  ∧ rate_limit_storage w' = rate_limit_storage w
  ∧ (redis_fault env ≠ Some AtReply → w' = w).
Proof.
  unfold redis_try. destruct (redis_client w) as [db|] eqn:Hdb; [|by intros [= _ <-]].
  destruct (redis_fault env) as [[]|].
  - by intros [= _ <-].
  - intros [= _ <-]. repeat split; cbn; rewrite ?Hdb; done.
  - by destruct (Redis.execute _ _ db).
Qed.

Lemma redis_try_stores env k t w b w' :
  redis_try cfg env k t w = Returned (b, w') → same_stores w' w.
Proof.
  unfold redis_try. destruct (redis_client w) as [db|] eqn:Hdb; [|done].
  destruct (redis_fault env) as [[]|]; [done|done|].
  destruct (Redis.execute _ _ db) as [results db']. intros [= _ <-].
  split; cbn; [by rewrite Hdb|done].
Qed.

(** An exception leaves the database check with the dictionary and Redis as
    they were, and with the table as it was unless the exception is that of
    [db.close()]. *)
Lemma database_try_raised env k t w e w' :
  database_try cfg env k t w = Raised e w' →
  same_stores w' w
  ∧ redis_client w' = redis_client w
  ∧ rate_limit_storage w' = rate_limit_storage w
  ∧ (db_fault env ≠ Some AtClose → w' = w).
Proof.
  unfold database_try, try_finally.
  destruct (SessionLocal w) as [tb|] eqn:Htb; [|by intros [= _ <-]].
  repeat (case_bool_decide; try done); intros [= _ <-];
    repeat split; cbn; rewrite ?Htb; done.
Qed.

Lemma database_try_stores env k t w b w' :
  database_try cfg env k t w = Returned (b, w') → same_stores w' w.
Proof.
  unfold database_try, try_finally.
  destruct (SessionLocal w) as [tb|] eqn:Htb; [|done].
  repeat (case_bool_decide; try done); intros [= _ <-];
    repeat split; cbn; rewrite ?Htb; done.
Qed.

Lemma redis_raises env k t w e w' :
  redis_try cfg env k t w = Raised e w' →
  check_rate_limit_redis cfg env k t w = Returned (memory_check cfg k t w').
Proof. intros H. unfold check_rate_limit_redis. by rewrite H. Qed.

Lemma database_raises env k t w e w' :
  database_try cfg env k t w = Raised e w' →
  check_rate_limit_database cfg env k t w = Returned (memory_check cfg k t w').
Proof. intros H. unfold check_rate_limit_database. by rewrite H. Qed.

Lemma memory_check_total k t w w0 :
  same_stores w w0 →
  ∃ b w', memory_check cfg k t w = (b, w') ∧ same_stores w' w0.
Proof.
  intros Hs. destruct (memory_check_stores k t w) as [Hr Hd].
  destruct (memory_check cfg k t w) as [b w'] eqn:E. exists b, w'. split; [done|].
  cbn in Hr, Hd. unfold same_stores in *. by rewrite Hr, Hd.
Qed.

Lemma redis_total env k t w :
  ∃ b w', check_rate_limit_redis cfg env k t w = Returned (b, w') ∧ same_stores w' w.
Proof.
  unfold check_rate_limit_redis.
  destruct (redis_try cfg env k t w) as [[b w']|e w'] eqn:E; cbn.
  - exists b, w'. split; [done|]. by eapply redis_try_stores.
  - apply redis_try_raised in E as (Hs & _).
    destruct (memory_check_total k t w' w Hs) as (b & w'' & -> & Hs').
    by exists b, w''.
Qed.

Lemma database_total env k t w :
  ∃ b w', check_rate_limit_database cfg env k t w = Returned (b, w') ∧ same_stores w' w.
Proof.
  unfold check_rate_limit_database.
  destruct (database_try cfg env k t w) as [[b w']|e w'] eqn:E; cbn.
  - exists b, w'. split; [done|]. by eapply database_try_stores.
  - apply database_try_raised in E as (Hs & _).
    destruct (memory_check_total k t w' w Hs) as (b & w'' & -> & Hs').
    by exists b, w''.
Qed.

Lemma check_total env k t w :
  ∃ b w', check_rate_limit cfg env k t w = Returned (b, w') ∧ same_stores w' w.
Proof.
  unfold check_rate_limit.
  pose proof (redis_total env k t w) as Hredis.
  pose proof (database_total env k t w) as Hdatabase.
  destruct (redis_client w) eqn:Hr; [done|].
  destruct (SessionLocal w) eqn:Hs; [done|].
  destruct (memory_check_total k t w w (same_stores_refl w)) as (b & w' & -> & Hs').
  by exists b, w'.
Qed.

Lemma selected_same w w' : same_stores w' w → selected w' = selected w.
Proof.
  unfold selected. intros [[H1 H2] [H3 H4]].
  destruct (redis_client w), (redis_client w'), (SessionLocal w), (SessionLocal w');
    try done; try (by discriminate H1); try (by discriminate H2);
    try (by discriminate H3); try (by discriminate H4).
Qed.

End Stores.

(** ** Header values *)

Section ClientIp.
Local Open Scope string_scope.

Lemma split_first sep s :
  ∃ rest, s = nth 0 (split sep s) "" +:+ rest
          ∧ occurs sep (nth 0 (split sep s) "") = false
          ∧ (rest = "" ∨ first_char rest = Some sep).
Proof.
  induction s as [|c s IH]; [by exists ""; auto|].
  cbn [split]. destruct (Ascii.eqb c sep) eqn:Ec.
  - apply Ascii.eqb_eq in Ec as ->. exists (String sep s). cbn. auto.
  - destruct IH as (rest & Hs & Hocc & Hrest).
    destruct (split sep s) as [|field fields] eqn:E.
    + cbn in Hs. exists rest. cbn. rewrite Ec. subst s. auto.
    + cbn in Hs, Hocc. exists rest. cbn. rewrite Ec, Hocc. split; [by rewrite Hs at 1|auto].
Qed.

Lemma lstrip_spec s :
  ∃ a, s = a +:+ lstrip s ∧ blank a = true
       ∧ (∀ c, first_char (lstrip s) = Some c → isspace c = false).
Proof.
  induction s as [|c s (a & Hs & Ha & Hc)]; [by exists ""|].
  cbn [lstrip]. destruct (isspace c) eqn:Ec.
  - exists (String c a). cbn. rewrite Ec, Ha. split; [by rewrite Hs at 1|auto].
  - exists "". cbn. split; [done|]. split; [done|]. by intros ? [= <-].
Qed.

Lemma rstrip_spec s :
  ∃ b, s = rstrip s +:+ b ∧ blank b = true
       ∧ (∀ c, last_char (rstrip s) = Some c → isspace c = false)
       ∧ first_char (rstrip s) = (if blank s then None else first_char s).
Proof.
  induction s as [|c s (b & Hs & Hb & Hc & Hf)]; [by exists ""|].
  cbn [rstrip blank first_char]. destruct (rstrip s) as [|c' r] eqn:E.
  - change ("" +:+ b) with b in Hs. subst s. destruct (isspace c) eqn:Ec.
    + exists (String c b). change ("" +:+ String c b) with (String c b).
      cbn. rewrite Ec, Hb. auto.
    + exists b. change (String c "" +:+ b) with (String c b).
      cbn. repeat split; auto. by intros ? [= <-].
  - exists b. change (String c (String c' r) +:+ b) with (String c (String c' r +:+ b)).
    rewrite <- Hs. split; [done|]. split; [done|]. split; [done|].
    destruct (blank s); [done|]. by destruct (isspace c).
Qed.

(** [strip] takes white space, and nothing else, from both ends. *)
Lemma strip_spec s :
  ∃ a b, s = a +:+ strip s +:+ b ∧ blank a = true ∧ blank b = true
         ∧ (∀ c, first_char (strip s) = Some c → isspace c = false)
         ∧ (∀ c, last_char (strip s) = Some c → isspace c = false).
Proof.
  unfold strip.
  destruct (lstrip_spec s) as (a & Hs & Ha & Hfirst).
  destruct (rstrip_spec (lstrip s)) as (b & Hs' & Hb & Hlast & Hf).
  exists a, b. split; [by rewrite <- Hs'|]. split; [done|]. split; [done|]. split; [|done].
  intros c. rewrite Hf. destruct (blank (lstrip s)); [done|]. apply Hfirst.
Qed.

Lemma truthy_spec x : truthy x = true ↔ ∃ v, x = Some v ∧ v ≠ "".
Proof.
  destruct x as [[|c v]|]; cbn; split; try done.
  - by intros (v & [= <-] & ?).
  - intros _. by eexists.
  - by intros (v & ? & ?).
Qed.

End ClientIp.

(** ** Checks within one window, on Redis and on the database *)

Section Windows.
Context (cfg : Config).
Local Abbreviation L := (RATE_LIMIT_REQUESTS cfg).
Local Abbreviation W := (RATE_LIMIT_WINDOW cfg).

(** *** Redis *)

Lemma expire_live now key secs t db :
  0 < secs → t < now + secs → live t key (Redis.expire now key secs db).2.
Proof.
  intros Hsecs Ht v d. unfold Redis.expire.
  destruct (db !! key) as [v0|] eqn:E; cbn.
  - rewrite bool_decide_eq_false_2 by lia. cbn. rewrite lookup_insert_eq.
    intros [= <-]. cbn. intros [= <-]. done.
  - by rewrite E.
Qed.

Lemma execute_other now pipe key' db :
  Forall (λ c, key' ≠ Redis.key_of c) pipe →
  (Redis.execute now pipe db).2 !! key' = db !! key'.
Proof.
  revert db. induction pipe as [|c pipe IH]; intros db Hne; [done|].
  apply Forall_cons in Hne as [Hc Hne]. cbn [Redis.execute].
  pose proof (exec_other now c key' db Hc) as H1.
  destruct (Redis.exec_command now c db) as [r db1]. cbn [snd] in H1.
  specialize (IH db1 Hne). destruct (Redis.execute now pipe db1) as [rs db2].
  cbn [snd] in IH |- *. by rewrite IH.
Qed.

Lemma pipeline_live key now lo hi m sc secs t db :
  0 < secs → t < now + secs →
  live t key (Redis.execute now
                [Redis.ZREMRANGEBYSCORE key lo hi; Redis.ZCARD key;
                 Redis.ZADD key m sc; Redis.EXPIRE key secs] db).2.
Proof.
  intros Hsecs Ht. cbn [Redis.execute].
  destruct (Redis.exec_command now (Redis.ZREMRANGEBYSCORE key lo hi) db) as [r1 db1].
  destruct (Redis.exec_command now (Redis.ZCARD key) db1) as [r2 db2].
  destruct (Redis.exec_command now (Redis.ZADD key m sc) db2) as [r3 db3].
  unfold Redis.exec_command. cbn [Redis.key_of].
  pose proof (expire_live now key secs t (Redis.purge now key db3) Hsecs Ht) as Hl.
  destruct (Redis.expire now key secs (Redis.purge now key db3)) as [r4 db4]. done.
Qed.

(** A check that Redis answers, step by step. *)
Lemma redis_step env k t w db :
  redis_client w = Some db → redis_fault env = None →
  let key := "rate_limit:" +:+ k in
  let run := Redis.execute t
               [Redis.ZREMRANGEBYSCORE key 0 (t - W); Redis.ZCARD key;
                Redis.ZADD key (str t) t; Redis.EXPIRE key W] db in
  check_rate_limit cfg env k t w
  = Returned (bool_decide (nth 1 run.1 0 < L), set_redis run.2 w).
Proof.
  intros Hdb Hf. cbn zeta. unfold check_rate_limit, check_rate_limit_redis, redis_try.
  rewrite Hdb, Hf. by destruct (Redis.execute _ _ db).
Qed.

Lemma zset_same key (db db' : gmap string Redis.value) :
  db' !! key = db !! key → zset key db' = zset key db.
Proof. unfold zset. by intros ->. Qed.

Lemma live_same t key (db db' : gmap string Redis.value) :
  db' !! key = db !! key → live t key db → live t key db'.
Proof. unfold live. by intros ->. Qed.

Lemma redis_answers_in_window k calls w db :
  redis_client w = Some db →
  Forall (λ c, redis_fault (call_env c) = None) calls →
  NoDup (times_for k (keyed_times calls)) →
  spread cfg (times_for k (keyed_times calls)) →
  (∀ m sc, zset ("rate_limit:" +:+ k) db !! m = Some sc →
     m = str sc ∧ Forall (λ t, sc ≠ t ∧ t - sc < W) (times_for k (keyed_times calls))) →
  Forall (λ t, live t ("rate_limit:" +:+ k) db) (times_for k (keyed_times calls)) →
  ∃ given w',
    checks cfg calls w = Returned (given, w')
    ∧ answers_for k (keyed_times calls) given
      = expected cfg (size (zset ("rate_limit:" +:+ k) db))
          (length (times_for k (keyed_times calls))).
Proof.
  revert w db. induction calls as [|[env k' t] calls IH];
    intros w db Hdb Hok Hnd Hsp Hkeyed Hlive.
  { by exists [], w. }
  apply Forall_cons in Hok as [Hc Hok]. cbn in Hc.
  cbn [keyed_times fmap list_fmap call_ip call_time] in *. fold (keyed_times calls) in *.
  rewrite times_for_cons in *.
  cbn [checks call_ip call_time call_env]. rewrite (redis_step _ _ _ _ db Hdb Hc). cbn zeta.
  destruct (decide (k' = k)) as [->|Hk].
  - (* a check of the key itself *)
    set (key := "rate_limit:" +:+ k) in *.
    set (pipe := [Redis.ZREMRANGEBYSCORE key 0 (t - W); Redis.ZCARD key;
                  Redis.ZADD key (str t) t; Redis.EXPIRE key W]).
    apply NoDup_cons in Hnd as [Hnew Hnd].
    apply Forall_cons in Hlive as [Hl Hlive].
    assert (0 < W) as HW.
    { apply spread_elem with (x := t) (y := t) in Hsp; [lia|left..]. }
    assert (Redis.outside_range 0 (t - W) (zset key (Redis.purge t key db)) = zset key db) as Hkeep.
    { rewrite (purge_id _ _ _ Hl). unfold Redis.outside_range. apply map_filter_id.
      intros m sc Hm. apply Hkeyed in Hm as [_ Hm]. apply Forall_cons in Hm as [[_ Hm] _].
      cbn. lia. }
    pose proof (pipeline_count key t 0 (t - W) (str t) t W db) as Hcount.
    pose proof (pipeline_zset key t 0 (t - W) (str t) t W db HW) as Hz.
    rewrite Hkeep in Hcount, Hz. fold pipe in Hcount, Hz.
    assert (zset key db !! str t = None) as Hfresh.
    { destruct (zset key db !! str t) as [sc|] eqn:E; [|done].
      apply Hkeyed in E as [E1 E2]. apply Forall_cons in E2 as [[E2 _] _].
      unfold str in E1. apply (inj pretty) in E1. congruence. }
    destruct (IH (set_redis (Redis.execute t pipe db).2 w) (Redis.execute t pipe db).2)
      as (given & w' & Hrun & Hans); [done|done|done|..].
    + eapply spread_incl; [done|]. intros x Hx. by right.
    + intros m sc. rewrite Hz. intros Hm.
      destruct (decide (m = str t)) as [->|Hne].
      * rewrite lookup_insert_eq in Hm. injection Hm as <-. split; [done|].
        apply Forall_forall. intros t' Ht'. split; [by intros ->|].
        eapply spread_elem; [done|by right|by left].
      * rewrite lookup_insert_ne in Hm by done. apply Hkeyed in Hm as [Hm1 Hm2].
        by apply Forall_cons in Hm2 as [_ Hm2].
    + apply Forall_forall. intros t' Ht'. apply pipeline_live; [done|].
      apply spread_elem with (x := t') (y := t) in Hsp; [lia|by right|by left].
    + rewrite Hrun. exists (bool_decide (nth 1 (Redis.execute t pipe db).1 0 < L) :: given), w'.
      split; [done|]. cbn [answers_for fst]. rewrite decide_True by done.
      rewrite Hans, Hcount, Hz. rewrite map_size_insert_None by done.
      done.
  - (* a check of another key *)
    set (key' := "rate_limit:" +:+ k').
    set (pipe := [Redis.ZREMRANGEBYSCORE key' 0 (t - W); Redis.ZCARD key';
                  Redis.ZADD key' (str t) t; Redis.EXPIRE key' W]).
    assert ("rate_limit:" +:+ k ≠ key') as Hkey.
    { subst key'. intros Heq. by apply (inj _) in Heq. }
    assert ((Redis.execute t pipe db).2 !! ("rate_limit:" +:+ k)
            = db !! ("rate_limit:" +:+ k)) as Hsame.
    { apply execute_other. subst pipe. by repeat constructor. }
    destruct (IH (set_redis (Redis.execute t pipe db).2 w) (Redis.execute t pipe db).2)
      as (given & w' & Hrun & Hans); [done|done|done|done|..].
    + intros m sc. rewrite (zset_same _ _ _ Hsame). apply Hkeyed.
    + eapply Forall_impl; [done|]. intros t'. by apply live_same.
    + rewrite Hrun. eexists (_ :: given), w'. split; [done|].
      cbn [answers_for fst]. rewrite decide_False by done.
      by rewrite Hans, (zset_same _ _ _ Hsame).
Qed.

(** *** The database *)

Lemma spread_closed_elem ts : spread_closed cfg ts ↔ ∀ x y, x ∈ ts → y ∈ ts → x - y ≤ W.
Proof.
  unfold spread_closed. rewrite Forall_forall. split.
  - intros H x y Hx Hy. specialize (H x Hx). rewrite Forall_forall in H. by apply H.
  - intros H x Hx. apply Forall_forall. intros y Hy. by apply H.
Qed.

Lemma spread_closed_incl ts ts' :
  spread_closed cfg ts → (∀ x, x ∈ ts' → x ∈ ts) → spread_closed cfg ts'.
Proof. rewrite !spread_closed_elem. intros Hsp Hin x y Hx Hy. apply Hsp; by apply Hin. Qed.

Lemma delete_expired_none k cutoff rs :
  (∀ r, r ∈ rs → RateLimitRecord.client_ip r = k → ¬ RateLimitRecord.timestamp r < cutoff) →
  delete_expired k cutoff rs = rs.
Proof.
  intros H. unfold delete_expired. induction rs as [|r rs IH]; [done|].
  rewrite filter_cons. rewrite decide_True.
  - f_equal. apply IH. intros r' Hr'. apply H. by right.
  - intros [Hk Ht]. by apply (H r); [left|..].
Qed.

Lemma delete_expired_other k k' cutoff rs :
  k' ≠ k →
  filter (λ r, RateLimitRecord.client_ip r = k) (delete_expired k' cutoff rs)
  = filter (λ r, RateLimitRecord.client_ip r = k) rs.
Proof.
  intros Hne. unfold delete_expired. induction rs as [|r rs IH]; [done|].
  rewrite !filter_cons. repeat case_decide; rewrite ?filter_cons; repeat case_decide;
    try (exfalso; intuition congruence); by rewrite IH.
Qed.

Lemma count_for_stamps k tb : count_for k (rows tb) = Z.of_nat (length (stamps_for k tb)).
Proof. unfold count_for, stamps_for. by rewrite length_fmap. Qed.

(** A check that the database answers. *)
Lemma database_step env k t w tb :
  redis_client w = None → SessionLocal w = Some tb → db_fault env = None →
  let session_rows := delete_expired k (t - W) (rows tb) in
  check_rate_limit cfg env k t w
  = Returned
      (if bool_decide (count_for k session_rows >= L) then (false, w)
       else (true, set_table
                     {| rows := session_rows ++
                                  [ {| RateLimitRecord.id := next_id tb;
                                       RateLimitRecord.client_ip := k;
                                       RateLimitRecord.timestamp := t |} ];
                        next_id := next_id tb + 1 |} w)).
Proof.
  intros Hr Htb Hf. cbn zeta.
  unfold check_rate_limit, check_rate_limit_database, database_try.
  rewrite Hr, Htb, Hf. rewrite !(bool_decide_eq_false_2 (None = Some _)) by done.
  by case_bool_decide.
Qed.

Lemma database_answers_in_window k calls w tb :
  redis_client w = None → SessionLocal w = Some tb →
  Forall (λ c, db_fault (call_env c) = None) calls →
  spread_closed cfg (stamps_for k tb ++ times_for k (keyed_times calls)) →
  ∃ given w',
    checks cfg calls w = Returned (given, w')
    ∧ answers_for k (keyed_times calls) given
      = expected cfg (length (stamps_for k tb)) (length (times_for k (keyed_times calls))).
Proof.
  revert w tb. induction calls as [|[env k' t] calls IH]; intros w tb Hr Htb Hok Hsp.
  { by exists [], w. }
  apply Forall_cons in Hok as [Hc Hok]. cbn in Hc.
  cbn [keyed_times fmap list_fmap call_ip call_time] in *. fold (keyed_times calls) in *.
  rewrite times_for_cons in *.
  cbn [checks call_ip call_time call_env]. rewrite (database_step _ _ _ _ tb Hr Htb Hc).
  cbn zeta.
  destruct (decide (k' = k)) as [->|Hk].
  - (* a check of the key itself: no row of the key is deleted *)
    rewrite delete_expired_none.
    2:{ intros r Hr' Hrk. assert (t - RateLimitRecord.timestamp r ≤ W); [|lia].
        apply (proj1 (spread_closed_elem _) Hsp).
        - apply elem_of_app. right. left.
        - apply elem_of_app. left. unfold stamps_for. apply list_elem_of_fmap.
          exists r. split; [done|]. by apply list_elem_of_filter. }
    rewrite count_for_stamps. case_bool_decide as Hfull.
    + destruct (IH w tb) as (given & w' & Hrun & Hans); [done|done|done|..].
      { eapply spread_closed_incl; [done|]. intros x.
        rewrite !elem_of_app, elem_of_cons. tauto. }
      rewrite Hrun. exists (false :: given), w'. split; [done|].
      cbn [answers_for fst]. rewrite decide_True by done. rewrite Hans.
      cbn [length expected]. rewrite bool_decide_eq_false_2 by lia.
      rewrite !expected_full; [done|lia..].
    + set (tb' := {| rows := rows tb ++ [ {| RateLimitRecord.id := next_id tb;
                                             RateLimitRecord.client_ip := k;
                                             RateLimitRecord.timestamp := t |} ];
                     next_id := next_id tb + 1 |}).
      assert (stamps_for k tb' = stamps_for k tb ++ [t]) as Hst.
      { unfold stamps_for. cbn. rewrite filter_app, fmap_app. f_equal.
        rewrite filter_cons. by rewrite decide_True. }
      destruct (IH (set_table tb' w) tb') as (given & w' & Hrun & Hans); [done|done|done|..].
      { rewrite Hst. eapply spread_closed_incl; [done|]. intros x.
        rewrite !elem_of_app, !elem_of_cons, elem_of_nil. tauto. }
      rewrite Hrun. exists (true :: given), w'. split; [done|].
      cbn [answers_for fst]. rewrite decide_True by done. rewrite Hans, Hst.
      cbn [length expected]. rewrite bool_decide_eq_true_2 by lia.
      rewrite length_app. cbn. by rewrite Nat.add_1_r.
  - (* a check of another key: the rows of the key stay *)
    case_bool_decide as Hfull.
    + destruct (IH w tb) as (given & w' & Hrun & Hans); [done..|].
      rewrite Hrun. exists (false :: given), w'. split; [done|].
      cbn [answers_for fst]. by rewrite decide_False by done.
    + set (tb' := {| rows := delete_expired k' (t - W) (rows tb) ++
                               [ {| RateLimitRecord.id := next_id tb;
                                    RateLimitRecord.client_ip := k';
                                    RateLimitRecord.timestamp := t |} ];
                     next_id := next_id tb + 1 |}).
      assert (stamps_for k tb' = stamps_for k tb) as Hst.
      { unfold stamps_for. cbn. rewrite filter_app, (delete_expired_other k k') by done.
        rewrite filter_cons, decide_False by done. cbn. by rewrite app_nil_r. }
      destruct (IH (set_table tb' w) tb') as (given & w' & Hrun & Hans); [done|done|done|..].
      { by rewrite Hst. }
      rewrite Hrun. exists (true :: given), w'. split; [done|].
      cbn [answers_for fst]. rewrite decide_False by done. by rewrite Hans, Hst.
Qed.

End Windows.

(** ** A failure of [db.close()]

    Limit 2, window 10, database alone.  The check at time 0 commits its row,
    then [db.close()] raises: the check is answered a second time, by the
    in-process store, and the request is now recorded in both stores. *)
Example close_failure_after_commit :
  check_rate_limit (quota 2 10) {| redis_fault := None; db_fault := Some AtClose |}
    ip_a 0 (started false true)
  = Returned (true,
      {| redis_client := None;
         SessionLocal := Some {| rows := [ {| RateLimitRecord.id := 1;
                                              RateLimitRecord.client_ip := ip_a;
                                              RateLimitRecord.timestamp := 0 |} ];
                                 next_id := 2 |};
         rate_limit_storage := {[ ip_a := [0] ]} |}).
Proof. by vm_compute. Qed.

(** ** The quota on a run of answers *)

Lemma expected_length cfg n m : length (expected cfg n m) = m.
Proof. revert n. induction m as [|m IH]; intros n; cbn; [done|]. by rewrite IH. Qed.

Lemma expected_quota cfg n m :
  0 ≤ RATE_LIMIT_REQUESTS cfg → quota_kept cfg m (expected cfg n m).
Proof.
  intros HL. split; [|split].
  - apply expected_length.
  - pose proof (expected_granted cfg n m). lia.
  - intros i b Hi Hb. apply expected_lookup in Hb. rewrite Hb.
    apply bool_decide_eq_false_2. lia.
Qed.

(** ** Checks within one window

    On readings that the program subtracts and compares without rounding
    (whole seconds, for instance), and with a limit that is not negative, the
    answers given to the checks of a key [k] keep the quota (at most
    [RATE_LIMIT_REQUESTS] answers [true], every answer from the
    ([RATE_LIMIT_REQUESTS]+1)-th on [false]), checks of other keys coming in
    between or not, in these cases.
    - In-process store: the times stored for [k] and the times of its checks
      are pairwise less than [RATE_LIMIT_WINDOW] apart.
    - Redis, answering, holding nothing for [k]: the times of the checks of
      [k] are pairwise less than [RATE_LIMIT_WINDOW] apart and pairwise
      different.
    - Database, answering: the times of the rows of [k] and the times of its
      checks are pairwise at most [RATE_LIMIT_WINDOW] apart. *)
Lemma window_quota cfg k :
  0 ≤ RATE_LIMIT_REQUESTS cfg →
  (∀ calls s,
     spread cfg (getitem s k ++ times_for k calls) →
     quota_kept cfg (length (times_for k calls))
       (answers_for k calls (memory_checks cfg calls s).1))
  ∧ (∀ calls w db,
       redis_client w = Some db →
       db !! ("rate_limit:" +:+ k) = None →
       Forall (λ c, redis_fault (call_env c) = None) calls →
       NoDup (times_for k (keyed_times calls)) →
       spread cfg (times_for k (keyed_times calls)) →
       ∃ given w',
         checks cfg calls w = Returned (given, w')
         ∧ quota_kept cfg (length (times_for k (keyed_times calls)))
             (answers_for k (keyed_times calls) given))
  ∧ (∀ calls w tb,
       redis_client w = None →
       SessionLocal w = Some tb →
       Forall (λ c, db_fault (call_env c) = None) calls →
       spread_closed cfg (stamps_for k tb ++ times_for k (keyed_times calls)) →
       ∃ given w',
         checks cfg calls w = Returned (given, w')
         ∧ quota_kept cfg (length (times_for k (keyed_times calls)))
             (answers_for k (keyed_times calls) given)).
Proof.
  intros HL. split; [|split].
  - intros calls s Hsp. rewrite answers_in_window; [|done]. by apply expected_quota.
  - intros calls w db Hdb Hnone Hok Hnd Hsp.
    destruct (redis_answers_in_window cfg k calls w db) as (given & w' & Hrun & Hans);
      [done|done|done|done|..].
    + intros m sc. unfold zset. rewrite Hnone. cbn. by rewrite lookup_empty.
    + apply Forall_forall. intros t _ v d. by rewrite Hnone.
    + exists given, w'. split; [done|]. rewrite Hans. by apply expected_quota.
  - intros calls w tb Hr Htb Hok Hsp.
    destruct (database_answers_in_window cfg k calls w tb) as (given & w' & Hrun & Hans);
      [done..|].
    exists given, w'. split; [done|]. rewrite Hans. by apply expected_quota.
Qed.

Lemma window_quota_witness :
  quota_kept (quota 3 10) 4
    (answers_for ip_a [(ip_a, 0); (ip_b, 1); (ip_a, 1); (ip_a, 2); (ip_a, 9)]
       (memory_checks (quota 3 10)
          [(ip_a, 0); (ip_b, 1); (ip_a, 1); (ip_a, 2); (ip_a, 9)] ∅).1)
  ∧ (∃ given w',
       checks (quota 3 10) (request_at healthy ip_a <$> [0; 1; 2; 9]) (started true false)
       = Returned (given, w')
       ∧ quota_kept (quota 3 10) 4
           (answers_for ip_a (keyed_times (request_at healthy ip_a <$> [0; 1; 2; 9])) given))
  ∧ (∃ given w',
       checks (quota 3 10) (request_at healthy ip_a <$> [0; 1; 2; 10]) (started false true)
       = Returned (given, w')
       ∧ quota_kept (quota 3 10) 4
           (answers_for ip_a (keyed_times (request_at healthy ip_a <$> [0; 1; 2; 10])) given)).
Proof.
  destruct (window_quota (quota 3 10) ip_a) as (Hmemory & Hredis & Hdatabase).
  { cbn. lia. }
  split; [|split].
  - apply (Hmemory [(ip_a, 0); (ip_b, 1); (ip_a, 1); (ip_a, 2); (ip_a, 9)] ∅).
    vm_compute. repeat constructor.
  - refine (Hredis (request_at healthy ip_a <$> [0; 1; 2; 9]) (started true false) ∅
              _ _ _ _ _).
    + reflexivity.
    + reflexivity.
    + repeat constructor.
    + vm_compute. repeat constructor; rewrite ?elem_of_cons, ?elem_of_nil; intuition discriminate.
    + vm_compute. repeat constructor.
  - refine (Hdatabase (request_at healthy ip_a <$> [0; 1; 2; 10]) (started false true)
              {| rows := []; next_id := 1 |} _ _ _ _).
    + reflexivity.
    + reflexivity.
    + repeat constructor.
    + vm_compute. repeat constructor; discriminate.
Defined.

(** ** What each store leaves out of its count

    On such readings, a check at [t] leaves out of its count: on the
    in-process store an entry with [x ≤ t - RATE_LIMIT_WINDOW]; on Redis (on
    a key that has not expired) an entry with a score from 0 to
    [t - RATE_LIMIT_WINDOW], both ends included; on the database a row with
    [timestamp < t - RATE_LIMIT_WINDOW]. *)
Lemma expiry_boundaries cfg k t :
  (∀ s,
     (check_rate_limit_memory cfg k t s).1
     = bool_decide
         (Z.of_nat (length (filter (λ x, ¬ x ≤ t - RATE_LIMIT_WINDOW cfg) (getitem s k)))
          < RATE_LIMIT_REQUESTS cfg))
  ∧ (∀ env w db,
       redis_client w = Some db → redis_fault env = None →
       answer (check_rate_limit_redis cfg env k t w)
       = Some (bool_decide
           (Z.of_nat (size (filter (λ entry : string * Z,
                                      ¬ (0 ≤ entry.2 ∧ entry.2 ≤ t - RATE_LIMIT_WINDOW cfg))
                              (zset ("rate_limit:" +:+ k)
                                    (Redis.purge t ("rate_limit:" +:+ k) db))))
            < RATE_LIMIT_REQUESTS cfg)))
  ∧ (∀ env w tb,
       SessionLocal w = Some tb → db_fault env = None →
       answer (check_rate_limit_database cfg env k t w)
       = Some (bool_decide
           (Z.of_nat (length (filter (λ r, RateLimitRecord.client_ip r = k
                                           ∧ ¬ RateLimitRecord.timestamp r
                                               < t - RATE_LIMIT_WINDOW cfg) (rows tb)))
            < RATE_LIMIT_REQUESTS cfg))).
Proof.
  split; [|split].
  - intros s. rewrite memory_answer. unfold in_window.
    rewrite (list_filter_iff (λ x, t - x < RATE_LIMIT_WINDOW cfg)
               (λ x, ¬ x ≤ t - RATE_LIMIT_WINDOW cfg)); [done|].
    intros x. lia.
  - intros env w db Hdb Hf. by apply redis_answer.
  - intros env w tb Htb Hf. rewrite (database_answer cfg env k t w tb Htb Hf).
    by rewrite count_after_delete.
Qed.

Lemma expiry_boundaries_witness :
  let key := ("rate_limit:" +:+ ip_a)%string in
  let db : gmap string Redis.value :=
    {[ key := {| Redis.members := {[ "0"%string := 0; "5"%string := 5 ]};
                 Redis.expire_at := Some 15 |} ]} in
  let tb := {| rows := [ {| RateLimitRecord.id := 1;
                            RateLimitRecord.client_ip := ip_a;
                            RateLimitRecord.timestamp := 0 |};
                         {| RateLimitRecord.id := 2;
                            RateLimitRecord.client_ip := ip_a;
                            RateLimitRecord.timestamp := 5 |} ];
               next_id := 3 |} in
  let w := set_table tb (set_redis db (started true true)) in
  (check_rate_limit_memory (quota 2 10) ip_a 10 {[ ip_a := [0; 5] ]}).1 = true
  ∧ answer (check_rate_limit_redis (quota 2 10) healthy ip_a 10 w) = Some true
  ∧ answer (check_rate_limit_database (quota 2 10) healthy ip_a 10 w) = Some false.
Proof.
  intros key db tb w.
  destruct (expiry_boundaries (quota 2 10) ip_a 10) as (Hmemory & Hredis & Hdatabase).
  split; [|split].
  - rewrite Hmemory. by vm_compute.
  - rewrite (Hredis healthy w db); [by vm_compute | reflexivity | reflexivity].
  - rewrite (Hdatabase healthy w tb); [by vm_compute | reflexivity | reflexivity].
Defined.

(** ** The selection after a run of checks *)

Lemma checks_selected cfg calls w :
  ∃ given w', checks cfg calls w = Returned (given, w')
              ∧ length given = length calls
              ∧ selected w' = selected w.
Proof.
  revert w. induction calls as [|c calls IH]; intros w.
  - by exists [], w.
  - cbn [checks].
    destruct (check_total cfg (call_env c) (call_ip c) (call_time c) w)
      as (b & w1 & -> & Hs).
    destruct (IH w1) as (bs & w2 & -> & Hlen & Hsel).
    exists (b :: bs), w2. split; [done|]. split; [cbn; by rewrite Hlen|].
    rewrite Hsel. by apply selected_same.
Qed.

(** * The statements of the specification *)

(** C1 at the failing inputs.  One key, 1.2.3.4, nothing stored at
    start-up, no store failing.
    - Limit 2, window 10, three checks at the same time 5.  With Redis
      selected the answers are true, true, true, one more than the limit: the
      member of the sorted set is the text of the time, so the three checks
      share one entry, and the third reads a count of 1.  The in-process
      store and the database, given the same checks, refuse the third.
    - Limit 1, window 10, checks at times 0 and 10, which lie in the ten
      seconds from 0 to 10.  The in-process store and Redis grant both, the
      entry of time 0 being dropped by the check at time 10; the database,
      whose test is [timestamp < cutoff_time], refuses the second. *)
Theorem quota_exceeded_within_window :
  (let cfg := quota 2 10 in
   let run := request_at healthy ip_a <$> [5; 5; 5] in
   let db' : gmap string Redis.value :=
     {[ ("rate_limit:" +:+ ip_a)%string :=
          {| Redis.members := {[ "5"%string := 5 ]}; Redis.expire_at := Some 15 |} ]} in
   spread cfg [5; 5; 5]
   ∧ checks cfg run (started true false)
     = Returned ([true; true; true], set_redis db' (started true false))
   ∧ ¬ granted [true; true; true] ≤ RATE_LIMIT_REQUESTS cfg
   ∧ answers (checks cfg run (started false false)) = Some [true; true; false]
   ∧ answers (checks cfg run (started false true)) = Some [true; true; false])
  ∧ (let cfg := quota 1 10 in
     let run := request_at healthy ip_a <$> [0; 10] in
     spread_closed cfg [0; 10]
     ∧ answers (checks cfg run (started false false)) = Some [true; true]
     ∧ answers (checks cfg run (started true false)) = Some [true; true]
     ∧ ¬ granted [true; true] ≤ RATE_LIMIT_REQUESTS cfg
     ∧ answers (checks cfg run (started false true)) = Some [true; false]).
Proof.
  split; repeat split; try (by vm_compute).
  - vm_compute. repeat constructor.
  - vm_compute. repeat constructor; discriminate.
Qed.

(** C2 at the failing input.  Redis selected and reachable, limit 1, window
    10, key 1.2.3.4: the check at time 0 is granted, the check at time 1 is
    rejected, and the rejected check has nevertheless been recorded: after
    the clean-up for time 1 the sorted set held one entry before the rejected
    check and holds two after it. *)
Theorem redis_records_rejected_check :
  let cfg := quota 1 10 in
  let key := ("rate_limit:" +:+ ip_a)%string in
  let w0 := started true false in
  let db1 : gmap string Redis.value :=
    {[ key := {| Redis.members := {[ "0"%string := 0 ]}; Redis.expire_at := Some 10 |} ]} in
  let db2 : gmap string Redis.value :=
    {[ key := {| Redis.members := {[ "0"%string := 0; "1"%string := 1 ]};
                 Redis.expire_at := Some 11 |} ]} in
  check_rate_limit cfg healthy ip_a 0 w0 = Returned (true, set_redis db1 w0)
  ∧ check_rate_limit cfg healthy ip_a 1 (set_redis db1 w0) = Returned (false, set_redis db2 w0)
  ∧ size (Redis.outside_range 0 (1 - 10) (zset key db1)) = 1%nat
  ∧ size (Redis.outside_range 0 (1 - 10) (zset key db2)) = 2%nat.
Proof. repeat split; by vm_compute. Qed.

(** C3 at the failing input.  Limit 2, window 10, key 1.2.3.4, nothing
    stored at start-up, no store failing; checks at times 0, 5 and 10.  At
    time 10 the entry made at time 0 is exactly one window old: its time
    equals [10 - 10] and is not less.  The database still counts it: it
    refuses the third check, as the claim has it, and keeps the row.  The
    in-process store, whose test is
    [current_time - req_time < RATE_LIMIT_WINDOW], and Redis, whose
    [zremrangebyscore] includes both ends of its range, have dropped it: they
    grant the third check and are left with the entries of times 5 and 10. *)
Theorem boundary_entry_dropped :
  let cfg := quota 2 10 in
  let run := request_at healthy ip_a <$> [0; 5; 10] in
  let tb' := {| rows := [ {| RateLimitRecord.id := 1;
                             RateLimitRecord.client_ip := ip_a;
                             RateLimitRecord.timestamp := 0 |};
                          {| RateLimitRecord.id := 2;
                             RateLimitRecord.client_ip := ip_a;
                             RateLimitRecord.timestamp := 5 |} ];
                next_id := 3 |} in
  let db' : gmap string Redis.value :=
    {[ ("rate_limit:" +:+ ip_a)%string :=
         {| Redis.members := {[ "5"%string := 5; "10"%string := 10 ]};
            Redis.expire_at := Some 20 |} ]} in
  checks cfg run (started false true)
  = Returned ([true; true; false], set_table tb' (started false true))
  ∧ checks cfg run (started false false)
    = Returned ([true; true; true], set_storage {[ ip_a := [5; 10] ]} (started false false))
  ∧ checks cfg run (started true false)
    = Returned ([true; true; true], set_redis db' (started true false)).
Proof. repeat split; by vm_compute. Qed.

(** C4 (amended).  When the store that [check_rate_limit] consults raises,
    the check for the same key and time is answered by the in-process store,
    whichever store failed: a failure of Redis goes to the in-process store
    directly, not to the database, whose table is left as it was, and a
    failure of the database goes to the in-process store.  There is one step
    per failure: the in-process check returns. *)
Theorem fallback_to_memory cfg env k t w :
  (∀ db e w', redis_client w = Some db → redis_try cfg env k t w = Raised e w' →
     check_rate_limit cfg env k t w = Returned (memory_check cfg k t w')
     ∧ SessionLocal (memory_check cfg k t w').2 = SessionLocal w)
  ∧ (∀ tb e w', redis_client w = None → SessionLocal w = Some tb →
       database_try cfg env k t w = Raised e w' →
       check_rate_limit cfg env k t w = Returned (memory_check cfg k t w')).
Proof.
  split.
  - intros db e w' Hdb Hr. split.
    + unfold check_rate_limit. rewrite Hdb. by eapply redis_raises.
    + destruct (redis_try_raised cfg _ _ _ _ _ _ Hr) as (_ & <- & _).
      apply memory_check_stores.
  - intros tb e w' Hdb Htb Hr. unfold check_rate_limit. rewrite Hdb, Htb.
    by eapply database_raises.
Qed.

Lemma fallback_to_memory_witness :
  let db1 : gmap string Redis.value :=
    {[ ("rate_limit:" +:+ ip_a)%string :=
         {| Redis.members := {[ "1"%string := 1 ]}; Redis.expire_at := Some 11 |} ]} in
  check_rate_limit (quota 1 10) redis_down ip_a 1 (started true true)
  = Returned (memory_check (quota 1 10) ip_a 1 (started true true))
  ∧ check_rate_limit (quota 1 10) redis_reply_lost ip_a 1 (started true true)
    = Returned (memory_check (quota 1 10) ip_a 1 (set_redis db1 (started true true)))
  ∧ check_rate_limit (quota 1 10) {| redis_fault := None; db_fault := Some AtCount |}
      ip_a 1 (started false true)
    = Returned (memory_check (quota 1 10) ip_a 1 (started false true)).
Proof.
  intros db1. split; [|split].
  - destruct (fallback_to_memory (quota 1 10) redis_down ip_a 1 (started true true))
      as (Hredis & _).
    apply (Hredis ∅ RedisConnectionError (started true true)); reflexivity.
  - destruct (fallback_to_memory (quota 1 10) redis_reply_lost ip_a 1 (started true true))
      as (Hredis & _).
    apply (Hredis ∅ RedisTimeoutError (set_redis db1 (started true true)));
      [reflexivity | by vm_compute].
  - destruct (fallback_to_memory (quota 1 10)
                {| redis_fault := None; db_fault := Some AtCount |} ip_a 1
                (started false true)) as (_ & Hdatabase).
    apply (Hdatabase {| rows := []; next_id := 1 |} OperationalError (started false true));
      reflexivity.
Defined.

(** C4, as stated, fails.  Limit 1, window 10; Redis and the database both
    configured, the table holding one row of the key made at time 0, the
    dictionary empty.  Redis fails on the check at time 1.  The database,
    next in the order of priority, answers [false] for this key and time;
    the check is answered [true], by the in-process store, and the table is
    as it was. *)
Lemma redis_failure_skips_database :
  let cfg := quota 1 10 in
  let tb := {| rows := [ {| RateLimitRecord.id := 1;
                            RateLimitRecord.client_ip := ip_a;
                            RateLimitRecord.timestamp := 0 |} ];
               next_id := 2 |} in
  let w := set_table tb (started true true) in
  check_rate_limit_database cfg healthy ip_a 1 w = Returned (false, w)
  ∧ check_rate_limit cfg redis_down ip_a 1 w
    = Returned (true, set_storage {[ ip_a := [1] ]} w)
  ∧ answer (check_rate_limit cfg redis_down ip_a 1 w)
    ≠ answer (check_rate_limit_database cfg healthy ip_a 1 w).
Proof. repeat split; by vm_compute. Qed.

(** C5 (amended).  No check changes which store is selected.  Every run of
    checks, whatever fails during it, returns one answer per check and leaves
    the selection made at start-up as it was; and the check that comes after
    the run consults the store selected at start-up again: it is answered by
    that store when the store answers, and by the in-process store, for this
    one check, when the store raises. *)
Theorem selection_fixed cfg calls w :
  ∃ given w',
    checks cfg calls w = Returned (given, w')
    ∧ length given = length calls
    ∧ selected w' = selected w
    ∧ (selected w = Shared →
       ∃ db, redis_client w' = Some db
         ∧ ∀ env k t,
             (redis_fault env = None →
              let key := "rate_limit:" +:+ k in
              let run := Redis.execute t
                           [Redis.ZREMRANGEBYSCORE key 0 (t - RATE_LIMIT_WINDOW cfg);
                            Redis.ZCARD key;
                            Redis.ZADD key (str t) t;
                            Redis.EXPIRE key (RATE_LIMIT_WINDOW cfg)] db in
              check_rate_limit cfg env k t w'
              = Returned (bool_decide (nth 1 run.1 0 < RATE_LIMIT_REQUESTS cfg),
                          set_redis run.2 w'))
             ∧ (∀ e w'', redis_try cfg env k t w' = Raised e w'' →
                  check_rate_limit cfg env k t w' = Returned (memory_check cfg k t w'')))
    ∧ (selected w = Relational →
       ∃ tb, redis_client w' = None ∧ SessionLocal w' = Some tb
         ∧ ∀ env k t,
             (db_fault env = None →
              let session_rows := delete_expired k (t - RATE_LIMIT_WINDOW cfg) (rows tb) in
              check_rate_limit cfg env k t w'
              = Returned
                  (if bool_decide (count_for k session_rows >= RATE_LIMIT_REQUESTS cfg)
                   then (false, w')
                   else (true, set_table
                                 {| rows := session_rows ++
                                              [ {| RateLimitRecord.id := next_id tb;
                                                   RateLimitRecord.client_ip := k;
                                                   RateLimitRecord.timestamp := t |} ];
                                    next_id := next_id tb + 1 |} w')))
             ∧ (∀ e w'', database_try cfg env k t w' = Raised e w'' →
                  check_rate_limit cfg env k t w' = Returned (memory_check cfg k t w'')))
    ∧ (selected w = Memory →
       ∀ env k t, check_rate_limit cfg env k t w' = Returned (memory_check cfg k t w')).
Proof.
  destruct (checks_selected cfg calls w) as (given & w' & Hrun & Hlen & Hsel).
  exists given, w'. split; [done|]. split; [done|]. split; [done|].
  rewrite <- Hsel. unfold selected.
  destruct (redis_client w') as [db|] eqn:Hdb; [|destruct (SessionLocal w') as [tb|] eqn:Htb].
  - split; [|done]. intros _. exists db. split; [done|]. intros env k t. split.
    + intros Hf. by apply redis_step.
    + intros e w'' Hr. unfold check_rate_limit. rewrite Hdb. by eapply redis_raises.
  - split; [done|]. split; [|done]. intros _. exists tb. split; [done|]. split; [done|].
    intros env k t. split.
    + intros Hf. by apply database_step.
    + intros e w'' Hr. unfold check_rate_limit. rewrite Hdb, Htb. by eapply database_raises.
  - split; [done|]. split; [done|]. intros _ env k t. unfold check_rate_limit.
    by rewrite Hdb, Htb.
Qed.

Lemma selection_fixed_witness :
  let cfg := quota 1 10 in
  let w0 := started true false in
  let w1 := set_storage {[ ip_a := [0] ]} w0 in
  let db2 : gmap string Redis.value :=
    {[ ("rate_limit:" +:+ ip_a)%string :=
         {| Redis.members := {[ "1"%string := 1 ]}; Redis.expire_at := Some 11 |} ]} in
  checks cfg [request_at redis_down ip_a 0] w0 = Returned ([true], w1)
  ∧ selected w1 = Shared
  ∧ check_rate_limit cfg healthy ip_a 1 w1 = Returned (true, set_redis db2 w1)
  ∧ check_rate_limit cfg redis_down ip_a 1 w1 = Returned (memory_check cfg ip_a 1 w1).
Proof.
  intros cfg w0 w1 db2.
  destruct (selection_fixed cfg [request_at redis_down ip_a 0] w0)
    as (given & w' & Hrun & _ & Hsel & Hshared & _).
  assert (checks cfg [request_at redis_down ip_a 0] w0 = Returned ([true], w1)) as Hw1
    by (by vm_compute).
  rewrite Hw1 in Hrun. injection Hrun as <- <-.
  destruct (Hshared eq_refl) as (db & Hdb & Hnext).
  injection Hdb as <-.
  split; [done|]. split; [exact Hsel|]. split.
  - destruct (Hnext healthy ip_a 1) as [Hanswers _].
    rewrite (Hanswers eq_refl). by vm_compute.
  - destruct (Hnext redis_down ip_a 1) as [_ Hraises].
    apply (Hraises RedisConnectionError w1). reflexivity.
Defined.

(** C5, as stated, fails.  Limit 1, window 10, Redis alone configured.  The
    check at time 0 finds Redis failing and is answered by the in-process
    store, which records it.  The check at time 1 finds Redis working: it is
    answered [true] by Redis, which records it, while the in-process store,
    to which the first check fell back, holds one entry and would answer
    [false]. *)
Lemma redis_preferred_again :
  let cfg := quota 1 10 in
  let w0 := started true false in
  let w1 := set_storage {[ ip_a := [0] ]} w0 in
  let db2 : gmap string Redis.value :=
    {[ ("rate_limit:" +:+ ip_a)%string :=
         {| Redis.members := {[ "1"%string := 1 ]}; Redis.expire_at := Some 11 |} ]} in
  check_rate_limit cfg redis_down ip_a 0 w0 = Returned (true, w1)
  ∧ check_rate_limit cfg healthy ip_a 1 w1 = Returned (true, set_redis db2 w1)
  ∧ (memory_check cfg ip_a 1 w1).1 = false
  ∧ selected w1 = Shared.
Proof. repeat split; by vm_compute. Qed.

(** C6.  [check_rate_limit] returns a truth value for every key, time, state
    and failure of the stores; no exception leaves it. *)
Theorem check_rate_limit_total cfg env k t w :
  ∃ allowed w', check_rate_limit cfg env k t w = Returned (allowed, w').
Proof. destruct (check_total cfg env k t w) as (b & w' & H & _). by exists b, w'. Qed.

(** C7.  Limit 3, window 10, one key, nothing stored: the checks at times 0,
    1, 2, 3 and 11 are answered true, true, true, false, true by the
    in-process store, and likewise when Redis or the database is the selected
    store. *)
Theorem scenario_three_per_ten :
  let cfg := quota 3 10 in
  (memory_checks cfg [(ip_a, 0); (ip_a, 1); (ip_a, 2); (ip_a, 3); (ip_a, 11)] ∅).1
  = [true; true; true; false; true]
  ∧ ∀ with_redis with_database,
      answers (checks cfg (request_at healthy ip_a <$> [0; 1; 2; 3; 11])
                 (started with_redis with_database))
      = Some [true; true; true; false; true].
Proof. split; [by vm_compute|]. intros [] []; by vm_compute. Qed.

(** C8 (amended).  [get_client_ip] depends on the request alone and takes, in
    this order: the text before the first comma of the X-Forwarded-For
    header, stripped of white space at both ends, if that header is present
    and not empty; else the X-Real-IP header if present and not empty; else
    the host of the peer; else ["unknown"]. *)
Theorem client_ip_priority (request : Request) :
  let forwarded_for := headers_get "X-Forwarded-For" (headers request) in
  let real_ip := headers_get "X-Real-IP" (headers request) in
  (∀ v, forwarded_for = Some v → v ≠ ""%string →
     get_client_ip request = strip (nth 0 (split "," v) ""%string))
  ∧ (∀ v, truthy forwarded_for = false → real_ip = Some v → v ≠ ""%string →
       get_client_ip request = v)
  ∧ (∀ peer, truthy forwarded_for = false → truthy real_ip = false →
       client request = Some peer → get_client_ip request = host peer)
  ∧ (truthy forwarded_for = false → truthy real_ip = false →
     client request = None → get_client_ip request = "unknown"%string).
Proof.
  cbn zeta. unfold get_client_ip. repeat split.
  - intros v Hv Hne. rewrite Hv. by destruct v.
  - intros v -> Hv Hne. rewrite Hv. by destruct v.
  - intros peer -> -> Hp. by rewrite Hp.
  - intros -> -> Hp. by rewrite Hp.
Qed.

Lemma client_ip_priority_witness :
  get_client_ip {| headers := [("x-forwarded-for", " 1.2.3.4 , 10.0.0.1");
                               ("x-real-ip", "5.6.7.8")]%string;
                   client := None |} = "1.2.3.4"%string
  ∧ get_client_ip {| headers := [("x-real-ip", "5.6.7.8")]%string;
                     client := None |} = "5.6.7.8"%string
  ∧ get_client_ip {| headers := [];
                     client := Some {| host := "9.9.9.9"; port := 4711 |} |}
    = "9.9.9.9"%string
  ∧ get_client_ip {| headers := []; client := None |} = "unknown"%string.
Proof.
  split; [|split; [|split]].
  - destruct (client_ip_priority
                {| headers := [("x-forwarded-for", " 1.2.3.4 , 10.0.0.1");
                               ("x-real-ip", "5.6.7.8")]%string;
                   client := None |}) as (H & _).
    apply (H " 1.2.3.4 , 10.0.0.1"%string); [reflexivity | discriminate].
  - destruct (client_ip_priority
                {| headers := [("x-real-ip", "5.6.7.8")]%string; client := None |})
      as (_ & H & _).
    apply (H "5.6.7.8"%string); [reflexivity | reflexivity | discriminate].
  - destruct (client_ip_priority
                {| headers := []; client := Some {| host := "9.9.9.9"; port := 4711 |} |})
      as (_ & _ & H & _).
    apply (H {| host := "9.9.9.9"; port := 4711 |}); reflexivity.
  - destruct (client_ip_priority {| headers := []; client := None |}) as (_ & _ & _ & H).
    apply H; reflexivity.
Defined.

(** C8, as stated, fails.  A request whose X-Forwarded-For header is present
    with an empty value and whose X-Real-IP header is 5.6.7.8: taking the
    first header because it is present gives the empty key; [get_client_ip]
    passes it over and returns 5.6.7.8. *)
Lemma empty_forwarded_header_skipped :
  let request := {| headers := [("x-forwarded-for", ""); ("x-real-ip", "5.6.7.8")]%string;
                    client := None |} in
  headers_get "X-Forwarded-For" (headers request) = Some ""%string
  ∧ client_key_by_presence request = ""%string
  ∧ get_client_ip request = "5.6.7.8"%string
  ∧ get_client_ip request ≠ client_key_by_presence request.
Proof. repeat split; by vm_compute. Qed.

(** C9.  A check of the key [k] on the in-process store leaves the list of
    every other key as it was; the answer given to a key [kb] is the same
    after any sequence of checks of other keys as before it; and a key with
    no list is treated as a key with the empty list, so that its check is
    granted exactly when the limit is positive. *)
Theorem memory_frame cfg k t s :
  (∀ k', k' ≠ k → (check_rate_limit_memory cfg k t s).2 !! k' = s !! k')
  ∧ (∀ calls kb tb, Forall (λ c, c.1 ≠ kb) calls →
       (check_rate_limit_memory cfg kb tb (memory_checks cfg calls s).2).1
       = (check_rate_limit_memory cfg kb tb s).1)
  ∧ (s !! k = None →
       check_rate_limit_memory cfg k t s = check_rate_limit_memory cfg k t (<[k := []]> s)
       ∧ (check_rate_limit_memory cfg k t s).1
         = bool_decide (0 < RATE_LIMIT_REQUESTS cfg)).
Proof.
  split; [|split].
  - intros k' Hk'. by apply memory_other.
  - intros calls kb tb Hne. rewrite !memory_answer. unfold getitem.
    by rewrite memory_checks_other.
  - intros Hnone. split.
    + rewrite !memory_unfold. rewrite getitem_insert. unfold getitem. rewrite Hnone. cbn.
      by rewrite !insert_insert_eq.
    + rewrite memory_answer. unfold getitem. by rewrite Hnone.
Qed.

Lemma memory_frame_witness :
  let cfg := quota 2 10 in
  let s : gmap string (list Z) := {[ ip_b := [1] ]} in
  (check_rate_limit_memory cfg ip_a 3 s).2 !! ip_b = Some [1]
  ∧ (check_rate_limit_memory cfg ip_b 5
       (memory_checks cfg [(ip_a, 2); (ip_a, 3); (ip_a, 4)] s).2).1
    = (check_rate_limit_memory cfg ip_b 5 s).1
  ∧ (check_rate_limit_memory cfg ip_a 3 s).1 = true.
Proof.
  destruct (memory_frame (quota 2 10) ip_a 3 {[ ip_b := [1] ]}) as (Hother & Hanswer & Hnew).
  split; [|split].
  - rewrite (Hother ip_b); [reflexivity | discriminate].
  - apply (Hanswer [(ip_a, 2); (ip_a, 3); (ip_a, 4)] ip_b 5).
    repeat constructor; discriminate.
  - destruct Hnew as [_ Hallow]; [reflexivity|]. rewrite Hallow. reflexivity.
Defined.

(** C10 (amended).  After any sequence of checks on the in-process store
    that starts from the empty dictionary, the list stored for any key has at
    most [RATE_LIMIT_REQUESTS] entries when that setting is not negative, and
    none otherwise: at most [max(0, RATE_LIMIT_REQUESTS)] entries. *)
Theorem memory_lists_bounded cfg calls k l :
  (memory_checks cfg calls ∅).2 !! k = Some l →
  Z.of_nat (length l) ≤ Z.max 0 (RATE_LIMIT_REQUESTS cfg).
Proof.
  intros Hl.
  assert (bounded cfg ∅) as H0 by (intros ? ?; by rewrite lookup_empty).
  exact (bounded_checks cfg calls ∅ H0 k l Hl).
Qed.

Lemma memory_lists_bounded_witness :
  (memory_checks (quota 2 10) [(ip_a, 0); (ip_a, 1); (ip_a, 2); (ip_b, 2); (ip_a, 10)] ∅).2
    !! ip_a = Some [1; 10]
  ∧ Z.of_nat (length [1; 10]) ≤ Z.max 0 2.
Proof.
  split; [by vm_compute|].
  apply (memory_lists_bounded (quota 2 10)
           [(ip_a, 0); (ip_a, 1); (ip_a, 2); (ip_b, 2); (ip_a, 10)] ip_a [1; 10]).
  by vm_compute.
Defined.

(** C10, as stated, fails.  Limit -1, window 10: the check of 1.2.3.4 at
    time 0 on the empty dictionary is refused and leaves the empty list
    under the key; its length, 0, is more than the limit. *)
Lemma negative_limit_stores_empty_list :
  let cfg := quota (-1) 10 in
  memory_checks cfg [(ip_a, 0)] ∅ = ([false], {[ ip_a := [] ]})
  ∧ (memory_checks cfg [(ip_a, 0)] ∅).2 !! ip_a = Some []
  ∧ ¬ Z.of_nat (length ([] : list Z)) ≤ RATE_LIMIT_REQUESTS cfg.
Proof.
  split; [by vm_compute|]. split; [by vm_compute|]. vm_compute. intros H. by apply H.
Qed.

(** * Further properties of the limiter *)

Section More.
Context (cfg : Config).
Local Abbreviation L := (RATE_LIMIT_REQUESTS cfg).
Local Abbreviation W := (RATE_LIMIT_WINDOW cfg).

Lemma in_window_none t l : (∀ x, x ∈ l → W ≤ t - x) → in_window cfg t l = [].
Proof.
  intros H. unfold in_window. induction l as [|x l IH]; [done|].
  rewrite filter_cons. rewrite decide_False.
  - apply IH. intros y Hy. apply H. by right.
  - specialize (H x). assert (W ≤ t - x) by (apply H; left). lia.
Qed.

(** X1.  Recovery of the in-process store: with a positive limit, a check
    made when every stored entry of the key is at least one window old is
    granted, and the list of the key becomes the one time of this check. *)
Theorem memory_recovers k t s :
  0 < L →
  (∀ x, x ∈ getitem s k → W ≤ t - x) →
  check_rate_limit_memory cfg k t s = (true, <[k := [t]]> s).
Proof.
  intros HL Hold. rewrite memory_unfold. cbn zeta. rewrite in_window_none by done.
  cbn. rewrite bool_decide_eq_false_2 by lia. done.
Qed.

Lemma memory_step_sublist k k' t s :
  getitem (check_rate_limit_memory cfg k' t s).2 k
  `sublist_of` getitem s k ++ granted_times k [(k', t)] [(check_rate_limit_memory cfg k' t s).1].
Proof.
  cbn [granted_times]. destruct (decide (k' = k)) as [->|Hne].
  - rewrite memory_unfold. cbn zeta. case_bool_decide; cbn [fst snd].
    + rewrite getitem_insert, app_nil_r. apply sublist_filter.
    + rewrite getitem_insert. apply sublist_app; [apply sublist_filter|done].
  - rewrite memory_getitem_other by done. by rewrite app_nil_r.
Qed.

Lemma granted_times_cons k k' t calls a given :
  granted_times k ((k', t) :: calls) (a :: given)
  = granted_times k [(k', t)] [a] ++ granted_times k calls given.
Proof. cbn. destruct (decide (k' = k)); [by destruct a|done]. Qed.

Lemma memory_checks_sublist k calls s :
  getitem (memory_checks cfg calls s).2 k
  `sublist_of` getitem s k ++ granted_times k calls (memory_checks cfg calls s).1.
Proof.
  revert s. induction calls as [|[k' t] calls IH]; intros s.
  { cbn. by rewrite app_nil_r. }
  cbn [memory_checks]. pose proof (memory_step_sublist k k' t s) as Hstep.
  destruct (check_rate_limit_memory cfg k' t s) as [a s1]. cbn [fst snd] in Hstep.
  specialize (IH s1). destruct (memory_checks cfg calls s1) as [given s2].
  cbn [fst snd] in IH |- *. rewrite granted_times_cons, app_assoc.
  etrans; [exact IH|]. by apply sublist_app.
Qed.

(** X2.  After any sequence of checks on the in-process store that starts
    from the empty dictionary, the list stored for a key holds, in their
    order, only times of checks of this key that were granted. *)
Theorem memory_holds_granted_times k calls l :
  (memory_checks cfg calls ∅).2 !! k = Some l →
  l `sublist_of` granted_times k calls (memory_checks cfg calls ∅).1.
Proof.
  intros Hl. pose proof (memory_checks_sublist k calls ∅) as H.
  unfold getitem in H. rewrite Hl, lookup_empty in H. done.
Qed.

(** *** What a check does to each store *)

Lemma check_storage env k t w b w' :
  check_rate_limit cfg env k t w = Returned (b, w') →
  rate_limit_storage w' = rate_limit_storage w
  ∨ rate_limit_storage w' = (check_rate_limit_memory cfg k t (rate_limit_storage w)).2.
Proof.
  assert (∀ w0, rate_limit_storage w0 = rate_limit_storage w →
            rate_limit_storage (memory_check cfg k t w0).2
            = (check_rate_limit_memory cfg k t (rate_limit_storage w)).2) as Hmem.
  { intros w0 <-. unfold memory_check. by destruct (check_rate_limit_memory _ _ _ _). }
  unfold check_rate_limit.
  destruct (redis_client w) as [db|] eqn:Hdb.
  - unfold check_rate_limit_redis.
    destruct (redis_try cfg env k t w) as [[b0 w0]|e w0] eqn:E; cbn.
    + intros [= <- <-]. left. unfold redis_try in E. rewrite Hdb in E.
      destruct (redis_fault env) as [[]|]; [done|done|].
      destruct (Redis.execute _ _ db). by injection E as _ <-.
    + apply redis_try_raised in E as (_ & _ & Hst & _). intros [= Hb]. right.
      rewrite <- (Hmem w0 Hst). by rewrite Hb.
  - destruct (SessionLocal w) as [tb|] eqn:Htb.
    + unfold check_rate_limit_database.
      destruct (database_try cfg env k t w) as [[b0 w0]|e w0] eqn:E; cbn.
      * intros [= <- <-]. left. unfold database_try, try_finally in E. rewrite Htb in E.
        repeat (case_bool_decide; try done); by injection E as _ <-.
      * apply database_try_raised in E as (_ & _ & Hst & _). intros [= Hb]. right.
        rewrite <- (Hmem w0 Hst). by rewrite Hb.
    + intros [= Hb]. right. rewrite <- (Hmem w eq_refl). by rewrite Hb.
Qed.

Lemma checks_bounded calls w :
  bounded cfg (rate_limit_storage w) →
  ∃ given w', checks cfg calls w = Returned (given, w')
              ∧ bounded cfg (rate_limit_storage w').
Proof.
  revert w. induction calls as [|c calls IH]; intros w Hb.
  { by exists [], w. }
  cbn [checks].
  destruct (check_total cfg (call_env c) (call_ip c) (call_time c) w) as (b & w1 & Hc & _).
  rewrite Hc. apply check_storage in Hc.
  destruct (IH w1) as (given & w2 & -> & Hb2).
  { destruct Hc as [-> | ->]; [done|]. by apply bounded_step. }
  by exists (b :: given), w2.
Qed.

(** X3.  The bound on the lists of the in-process store holds for the
    whole limiter: with a limit that is not negative, whatever store is
    selected and whichever checks fail over to the dictionary, every run of
    [check_rate_limit] from an empty dictionary returns and leaves no list
    longer than [RATE_LIMIT_REQUESTS]. *)
Theorem limiter_memory_bounded calls w :
  0 ≤ L →
  rate_limit_storage w = ∅ →
  ∃ given w', checks cfg calls w = Returned (given, w')
              ∧ ∀ k l, rate_limit_storage w' !! k = Some l → Z.of_nat (length l) ≤ L.
Proof.
  intros HL Hempty. destruct (checks_bounded calls w) as (given & w' & Hrun & Hb).
  { rewrite Hempty. intros ? ?. by rewrite lookup_empty. }
  exists given, w'. split; [done|]. intros k l Hl. specialize (Hb k l Hl). lia.
Qed.


(** *** The table *)

Lemma count_for_app k rs1 rs2 : count_for k (rs1 ++ rs2) = count_for k rs1 + count_for k rs2.
Proof. unfold count_for. rewrite filter_app, length_app. lia. Qed.

Lemma count_for_delete_other k k' cutoff rs :
  k' ≠ k → count_for k (delete_expired k' cutoff rs) = count_for k rs.
Proof. intros. unfold count_for. by rewrite delete_expired_other. Qed.

(** The table that a check leaves: the one it found, or the one it found
    with the expired rows of the key gone and one row added while the key had
    fewer rows than the limit. *)
Lemma check_table env k t w b w' :
  check_rate_limit cfg env k t w = Returned (b, w') →
  SessionLocal w' = SessionLocal w
  ∨ ∃ tb, SessionLocal w = Some tb
          ∧ count_for k (delete_expired k (t - W) (rows tb)) < L
          ∧ SessionLocal w'
            = Some {| rows := delete_expired k (t - W) (rows tb) ++
                                [ {| RateLimitRecord.id := next_id tb;
                                     RateLimitRecord.client_ip := k;
                                     RateLimitRecord.timestamp := t |} ];
                      next_id := next_id tb + 1 |}.
Proof.
  unfold check_rate_limit.
  destruct (redis_client w) as [db|] eqn:Hdb.
  - unfold check_rate_limit_redis.
    destruct (redis_try cfg env k t w) as [[b0 w0]|e w0] eqn:E; cbn.
    + intros [= <- <-]. left. unfold redis_try in E. rewrite Hdb in E.
      destruct (redis_fault env) as [[]|]; [done|done|].
      destruct (Redis.execute _ _ db). by injection E as _ <-.
    + apply redis_try_raised in E as (_ & Htb & _). intros [= Hb]. left.
      replace w' with (memory_check cfg k t w0).2 by (by rewrite Hb).
      rewrite <- Htb. apply memory_check_stores.
  - destruct (SessionLocal w) as [tb|] eqn:Htb.
    + unfold check_rate_limit_database.
      assert (∀ w0, SessionLocal (memory_check cfg k t w0).2 = SessionLocal w0) as Hmem
        by (intros; apply memory_check_stores).
      destruct (database_try cfg env k t w) as [[b0 w0]|e w0] eqn:E; cbn.
      * intros [= <- <-]. unfold database_try, try_finally in E. rewrite Htb in E.
        repeat (case_bool_decide; try done); injection E as _ <-.
        -- left. by rewrite Htb.
        -- right. exists tb. split; [done|]. split; [lia|done].
      * intros [= Hb]. replace w' with (memory_check cfg k t w0).2 by (by rewrite Hb).
        rewrite Hmem. clear Hb.
        unfold database_try, try_finally in E. rewrite Htb in E.
        repeat (case_bool_decide; try done); injection E as _ <-;
          try (left; by rewrite Htb).
        right. exists tb. split; [done|]. split; [lia|done].
    + intros [= Hb]. left. replace w' with (memory_check cfg k t w).2 by (by rewrite Hb).
      rewrite <- Htb. apply memory_check_stores.
Qed.

Lemma checks_table_bounded calls w tb :
  SessionLocal w = Some tb →
  (∀ k, count_for k (rows tb) ≤ Z.max 0 L) →
  ∃ given w' tb', checks cfg calls w = Returned (given, w')
                  ∧ SessionLocal w' = Some tb'
                  ∧ ∀ k, count_for k (rows tb') ≤ Z.max 0 L.
Proof.
  revert w tb. induction calls as [|c calls IH]; intros w tb Htb Hb.
  { by exists [], w, tb. }
  cbn [checks].
  destruct (check_total cfg (call_env c) (call_ip c) (call_time c) w) as (b & w1 & Hc & _).
  rewrite Hc. apply check_table in Hc.
  assert (∃ tb1, SessionLocal w1 = Some tb1 ∧ ∀ k, count_for k (rows tb1) ≤ Z.max 0 L)
    as (tb1 & Htb1 & Hb1).
  { destruct Hc as [Hsame | (tb0 & Htb0 & Hcount & Hnew)].
    - exists tb. by rewrite Hsame.
    - rewrite Htb in Htb0. injection Htb0 as <-. eexists. split; [done|]. cbn.
      intros k. rewrite count_for_app. unfold count_for at 2. rewrite filter_cons. cbn.
      destruct (decide (call_ip c = k)) as [<-|Hne]; cbn.
      + lia.
      + rewrite count_for_delete_other by done. specialize (Hb k). lia. }
  destruct (IH w1 tb1 Htb1 Hb1) as (given & w2 & tb2 & -> & Htb2 & Hb2).
  by exists (b :: given), w2, tb2.
Qed.

(** X4.  With a limit that is not negative, a table that holds at most
    [RATE_LIMIT_REQUESTS] rows of each key still does after any run of
    [check_rate_limit], whatever fails during it. *)
Theorem limiter_table_bounded calls w tb :
  0 ≤ L →
  SessionLocal w = Some tb →
  (∀ k, count_for k (rows tb) ≤ L) →
  ∃ given w' tb', checks cfg calls w = Returned (given, w')
                  ∧ SessionLocal w' = Some tb'
                  ∧ ∀ k, count_for k (rows tb') ≤ L.
Proof.
  intros HL Htb Hb.
  destruct (checks_table_bounded calls w tb Htb) as (given & w' & tb' & Hrun & Htb' & Hb').
  { intros k. specialize (Hb k). lia. }
  exists given, w', tb'. split; [done|]. split; [done|]. intros k. specialize (Hb' k). lia.
Qed.


(** *** Frames of Redis and of the database *)

(** X5.  A check that Redis answers changes Redis alone (the table and the
    dictionary are as before), and in Redis no key other than
    ["rate_limit:" + client_ip]. *)
Theorem redis_check_frame env k t w db :
  redis_client w = Some db → redis_fault env = None →
  ∃ b db', check_rate_limit cfg env k t w = Returned (b, set_redis db' w)
           ∧ ∀ key', key' ≠ "rate_limit:" +:+ k → db' !! key' = db !! key'.
Proof.
  intros Hdb Hf. rewrite (redis_step cfg env k t w db Hdb Hf). cbn zeta.
  eexists _, _. split; [done|]. intros key' Hne. apply execute_other.
  by repeat constructor.
Qed.

(** X6.  A check that the database answers changes the table alone, and
    in the table the rows of no other key. *)
Theorem database_check_frame env k t w tb :
  redis_client w = None → SessionLocal w = Some tb → db_fault env = None →
  ∃ b tb', check_rate_limit cfg env k t w = Returned (b, set_table tb' w)
           ∧ ∀ k', k' ≠ k →
               filter (λ r, RateLimitRecord.client_ip r = k') (rows tb')
               = filter (λ r, RateLimitRecord.client_ip r = k') (rows tb).
Proof.
  intros Hr Htb Hf. rewrite (database_step cfg env k t w tb Hr Htb Hf). cbn zeta.
  case_bool_decide.
  - exists false, tb. split; [|done]. do 2 f_equal. destruct w. cbn in *. by subst.
  - eexists true, _. split; [done|]. intros k' Hne. cbn.
    rewrite filter_app, (delete_expired_other k' k) by done.
    rewrite filter_cons, decide_False by done. cbn. by rewrite app_nil_r.
Qed.

(** X7.  What a rejected check leaves behind: on the in-process store, the
    list of the key with its expired entries dropped and nothing else; on
    the database, nothing at all, the expired rows of the key staying in the
    table since the session is closed without a commit. *)
Theorem rejected_check_effects k t :
  (∀ s, (check_rate_limit_memory cfg k t s).1 = false →
     (check_rate_limit_memory cfg k t s).2
     = <[k := filter (λ req_time, t - req_time < W) (getitem s k)]> s)
  ∧ (∀ env w tb,
       redis_client w = None → SessionLocal w = Some tb → db_fault env = None →
       answer (check_rate_limit cfg env k t w) = Some false →
       check_rate_limit cfg env k t w = Returned (false, w)).
Proof.
  split.
  - intros s. rewrite memory_unfold. cbn zeta. by case_bool_decide.
  - intros env w tb Hr Htb Hf. rewrite (database_step cfg env k t w tb Hr Htb Hf). cbn zeta.
    by case_bool_decide.
Qed.

(** *** What Redis holds after a check *)

Lemma expire_deadline now key secs db v :
  0 < secs → db !! key = Some v →
  (Redis.expire now key secs db).2 !! key
  = Some {| Redis.members := Redis.members v; Redis.expire_at := Some (now + secs) |}.
Proof.
  intros Hs Hv. unfold Redis.expire. rewrite Hv.
  rewrite bool_decide_eq_false_2 by lia. cbn. by rewrite lookup_insert_eq.
Qed.

Lemma zadd_some key m sc db : is_Some ((Redis.zadd key m sc db).2 !! key).
Proof. unfold Redis.zadd. destruct (db !! key); cbn; by rewrite lookup_insert_eq. Qed.

Lemma pipeline_deadline key now lo hi m sc secs db :
  0 < secs →
  ∃ v, (Redis.execute now
          [Redis.ZREMRANGEBYSCORE key lo hi; Redis.ZCARD key;
           Redis.ZADD key m sc; Redis.EXPIRE key secs] db).2 !! key = Some v
       ∧ Redis.expire_at v = Some (now + secs).
Proof.
  intros Hsecs. cbn [Redis.execute].
  destruct (Redis.exec_command now (Redis.ZREMRANGEBYSCORE key lo hi) db) as [r1 db1].
  destruct (Redis.exec_command now (Redis.ZCARD key) db1) as [r2 db2].
  pose proof (purge_live now key db2) as Hl.
  unfold Redis.exec_command at 1. cbn [Redis.key_of].
  pose proof (zadd_some key m sc (Redis.purge now key db2)) as [v3 Hv3].
  pose proof (zadd_live now key m sc _ Hl) as Hl3.
  destruct (Redis.zadd key m sc (Redis.purge now key db2)) as [r3 db3]. cbn [snd] in Hv3, Hl3.
  unfold Redis.exec_command at 1. cbn [Redis.key_of]. rewrite (purge_id _ _ _ Hl3).
  pose proof (expire_deadline now key secs db3 v3 Hsecs Hv3) as Hv4.
  destruct (Redis.expire now key secs db3) as [r4 db4]. cbn [snd] in Hv4 |- *.
  eexists. split; [exact Hv4|done].
Qed.

(** X8.  With a positive window, after a check that Redis answers, granted
    or not, the sorted set of the key holds the member [str(current_time)]
    with the time as its score, and the key expires one window later. *)
Theorem redis_check_recorded env k t w db :
  0 < W → redis_client w = Some db → redis_fault env = None →
  ∃ b db' v,
    check_rate_limit cfg env k t w = Returned (b, set_redis db' w)
    ∧ db' !! ("rate_limit:" +:+ k) = Some v
    ∧ Redis.members v !! str t = Some t
    ∧ Redis.expire_at v = Some (t + W).
Proof.
  intros HW Hdb Hf. rewrite (redis_step cfg env k t w db Hdb Hf). cbn zeta.
  set (key := "rate_limit:" +:+ k).
  destruct (pipeline_deadline key t 0 (t - W) (str t) t W db HW) as (v & Hv & Hd).
  pose proof (pipeline_zset key t 0 (t - W) (str t) t W db HW) as Hz.
  eexists _, _, v. split; [done|]. split; [exact Hv|]. split; [|done].
  unfold zset in Hz. rewrite Hv in Hz. cbn in Hz. rewrite Hz. by rewrite lookup_insert_eq.
Qed.

(** *** A limiter whose store is down *)

Lemma falls_back_check env k t w :
  falls_back w env = true →
  check_rate_limit cfg env k t w = Returned (memory_check cfg k t w).
Proof.
  unfold falls_back, check_rate_limit. destruct (redis_client w) as [db|] eqn:Hdb.
  - intros Hf%bool_decide_eq_true. unfold check_rate_limit_redis, redis_try.
    by rewrite Hdb, Hf.
  - destruct (SessionLocal w) as [tb|] eqn:Htb; [|done].
    intros Hf%bool_decide_eq_true. unfold check_rate_limit_database, database_try.
    rewrite Htb. destruct Hf as [Hf|[Hf|Hf]]; rewrite Hf; cbn;
      repeat (case_bool_decide; try done).
Qed.

Lemma falls_back_storage s w env : falls_back (set_storage s w) env = falls_back w env.
Proof. done. Qed.

(** X9.  While the store that is consulted first fails at every check
    before anything is committed (or no such store is configured), the
    limiter is the in-process limiter: the answers and the dictionary are
    those of [check_rate_limit_memory] run on the same keys and times, and
    Redis and the table are left as they were. *)
Theorem store_down_is_memory calls w :
  Forall (λ c, falls_back w (call_env c) = true) calls →
  checks cfg calls w
  = Returned ((memory_checks cfg (keyed_times calls) (rate_limit_storage w)).1,
              set_storage (memory_checks cfg (keyed_times calls) (rate_limit_storage w)).2 w).
Proof.
  revert w. induction calls as [|c calls IH]; intros w Hdown.
  { cbn. do 2 f_equal. by destruct w. }
  apply Forall_cons in Hdown as [Hc Hdown].
  cbn [checks keyed_times fmap list_fmap memory_checks]. fold (keyed_times calls).
  rewrite (falls_back_check _ _ _ _ Hc). unfold memory_check.
  destruct (check_rate_limit_memory cfg (call_ip c) (call_time c) (rate_limit_storage w))
    as [b s1].
  rewrite (IH (set_storage s1 w)) by done. cbn [rate_limit_storage set_storage].
  by destruct (memory_checks cfg (keyed_times calls) s1).
Qed.

End More.

(** ** More on [get_client_ip] *)

Section MoreClientIp.
Local Open Scope string_scope.

Lemma occurs_app c s1 s2 : occurs c (s1 +:+ s2) = occurs c s1 || occurs c s2.
Proof.
  induction s1 as [|c' s1 IH]; [done|].
  change (String c' s1 +:+ s2) with (String c' (s1 +:+ s2)). cbn. rewrite IH.
  by destruct (Ascii.eqb c' c).
Qed.

Lemma occurs_strip c s : occurs c s = false → occurs c (strip s) = false.
Proof.
  destruct (strip_spec s) as (a & b & Hs & _). intros Hocc. rewrite Hs in Hocc.
  rewrite !occurs_app in Hocc. apply orb_false_elim in Hocc as [_ Hocc].
  by apply orb_false_elim in Hocc as [Hocc _].
Qed.

Lemma split_without sep s : occurs sep s = false → split sep s = [s].
Proof.
  induction s as [|c s IH]; [done|]. cbn. destruct (Ascii.eqb c sep); [done|].
  cbn. intros Hs. by rewrite (IH Hs).
Qed.

Lemma headers_get_first key v hs :
  headers_get key ((lower key, v) :: hs) = Some v.
Proof. unfold headers_get. cbn. by rewrite String.eqb_refl. Qed.

(** X10.  A key taken from a X-Forwarded-For header that is not empty
    holds no comma and neither begins nor ends with white space. *)
Theorem forwarded_key_clean (request : Request) v :
  headers_get "X-Forwarded-For" (headers request) = Some v → v ≠ "" →
  occurs "," (get_client_ip request) = false
  ∧ (∀ c, first_char (get_client_ip request) = Some c → isspace c = false)
  ∧ (∀ c, last_char (get_client_ip request) = Some c → isspace c = false).
Proof.
  intros Hv Hne. unfold get_client_ip. rewrite Hv.
  replace (truthy (Some v)) with true by (by destruct v). cbn [default].
  destruct (split_first "," v) as (rest & _ & Hocc & _).
  destruct (strip_spec (nth 0 (split "," v) "")) as (a & b & _ & _ & _ & Hfirst & Hlast).
  split; [by apply occurs_strip|done].
Qed.

(** X11.  The sender of a request chooses its key: a first X-Forwarded-For
    header whose value is not empty, holds no comma and has no white space
    at its ends is returned as the key, whatever the other headers and the
    peer of the connection are. *)
Theorem forwarded_header_sets_key v hs peer :
  v ≠ "" → occurs "," v = false → strip v = v →
  get_client_ip {| headers := ("x-forwarded-for", v) :: hs; client := peer |} = v.
Proof.
  intros Hne Hocc Hstrip. unfold get_client_ip. cbn [headers].
  change "x-forwarded-for" with (lower "X-Forwarded-For").
  rewrite headers_get_first. replace (truthy (Some v)) with true by (by destruct v).
  cbn [default]. by rewrite split_without.
Qed.

End MoreClientIp.

(** * The handlers and what they call *)

(** ** Cleaning the content of a completion *)

Section Cleaning.

Local Abbreviation fence := (utext "```").
Local Abbreviation rep := (text_replace (utext "```") []).

Lemma rep_fence s : rep (96%N :: 96%N :: 96%N :: s) = rep s.
Proof.
  unfold text_replace. cbn [replace_from].
  rewrite bool_decide_eq_true_2; [done|]. by exists s.
Qed.

Lemma rep_other c s : ¬ fence `prefix_of` (c :: s) → rep (c :: s) = c :: rep s.
Proof. intros H. unfold text_replace. cbn [replace_from]. by rewrite bool_decide_eq_false_2. Qed.

Lemma fence_prefix s : fence `prefix_of` s ↔ ∃ s', s = 96%N :: 96%N :: 96%N :: s'.
Proof. split; intros [s' ->]; by exists s'. Qed.

(** Induction along the scan of [replace]. *)
Lemma rep_ind (P : text → Prop) :
  P [] →
  (∀ s, P s → P (96%N :: 96%N :: 96%N :: s)) →
  (∀ c s, ¬ fence `prefix_of` (c :: s) → P s → P (c :: s)) →
  ∀ s, P s.
Proof.
  intros Hnil Hfence Hother s.
  assert (∀ n s, (length s ≤ n)%nat → P s) as H; [|by apply (H (length s))].
  clear s. induction n as [|n IH]; intros s Hlen.
  { destruct s; [done|cbn in Hlen; lia]. }
  destruct s as [|c s]; [done|].
  destruct (decide (fence `prefix_of` (c :: s))) as [Hp|Hp].
  - apply fence_prefix in Hp as [s' Heq]. rewrite Heq. apply Hfence, IH.
    injection Heq as -> ->. cbn in Hlen. lia.
  - apply Hother; [done|]. apply IH. cbn in Hlen. lia.
Qed.

Lemma lead_fence s : (3 ≤ lead s)%nat ↔ fence `prefix_of` s.
Proof.
  rewrite fence_prefix. split.
  - destruct s as [|a [|b [|c s]]]; cbn; repeat case_bool_decide; subst; try lia.
    intros _. by exists s.
  - intros [s' ->]. cbn [lead]. rewrite !bool_decide_eq_true_2 by done. lia.
Qed.

Lemma lead_rep s : lead (rep s) = (lead s mod 3)%nat.
Proof.
  induction s as [|s IH|c s Hp IH] using rep_ind; [done|..].
  - rewrite rep_fence, IH. cbn [lead]. rewrite !bool_decide_eq_true_2 by done.
    change (S (S (S (lead s)))) with (3 + lead s)%nat.
    by rewrite <- (Nat.Div0.mod_add (lead s) 1 3), Nat.add_comm.
  - rewrite rep_other by done. cbn [lead]. case_bool_decide as Hc; [|done]. subst c.
    rewrite IH. assert (lead s < 2)%nat as Hlt.
    { destruct (decide (lead s < 2)%nat) as [|Hge]; [done|]. exfalso. apply Hp.
      apply lead_fence. cbn [lead]. rewrite bool_decide_eq_true_2 by done. lia. }
    destruct (lead s) as [|[|n]]; [done|done|lia].
Qed.

Lemma rep_suffix s t : t `suffix_of` rep s → ∃ s', t = rep s'.
Proof.
  revert t. induction s as [|s IH|c s Hp IH] using rep_ind; intros t.
  - intros Ht. apply suffix_nil_inv in Ht as ->. by exists [].
  - rewrite rep_fence. apply IH.
  - rewrite rep_other by done. intros Ht. destruct t as [|x t]; [by exists []|].
    apply suffix_cons_inv in Ht as [->|Ht].
    + exists (c :: s). by rewrite rep_other.
    + by apply IH.
Qed.

Lemma rep_no_fence s a b : rep s ≠ a ++ fence ++ b.
Proof.
  intros Heq. destruct (rep_suffix s (fence ++ b)) as [s' Hs'].
  { exists a. by rewrite Heq. }
  assert (3 ≤ lead (rep s'))%nat as Hlead.
  { rewrite <- Hs'. apply lead_fence. by exists b. }
  rewrite lead_rep in Hlead. pose proof (Nat.mod_upper_bound (lead s') 3). lia.
Qed.

Lemma replace_absent o old new s :
  o ∉ s → text_replace (o :: old) new s = s.
Proof.
  intros Habs. unfold text_replace. induction s as [|c s IH]; [done|].
  cbn [replace_from]. rewrite bool_decide_eq_false_2.
  - f_equal. apply IH. intros Hs. apply Habs. by right.
  - intros [k Hk]. injection Hk as -> _. apply Habs. by left.
Qed.

Lemma text_lstrip_spec s :
  ∃ a, s = a ++ text_lstrip s
       ∧ ∀ c rest, text_lstrip s = c :: rest → unicode_isspace c = false.
Proof.
  induction s as [|c s (a & Hs & Hc)]; [by exists []|].
  cbn [text_lstrip]. destruct (unicode_isspace c) eqn:Ec.
  - exists (c :: a). split; [cbn; by rewrite <- Hs|done].
  - exists []. split; [done|]. by intros ? ? [= <- _].
Qed.

Lemma text_strip_spec s :
  ∃ a b, s = a ++ text_strip s ++ b
         ∧ (∀ c rest, text_strip s = c :: rest → unicode_isspace c = false)
         ∧ (∀ c front, text_strip s = front ++ [c] → unicode_isspace c = false).
Proof.
  unfold text_strip.
  destruct (text_lstrip_spec s) as (a & Hs & Hfirst).
  destruct (text_lstrip_spec (reverse (text_lstrip s))) as (b & Hr & Hlast).
  set (m := text_lstrip (reverse (text_lstrip s))) in *.
  assert (text_lstrip s = reverse m ++ reverse b) as Hmid.
  { rewrite <- reverse_app, <- Hr. by rewrite reverse_involutive. }
  exists a, (reverse b). split; [|split].
  - by rewrite <- Hmid.
  - intros c rest Hc. rewrite Hc in Hmid. by eapply Hfirst.
  - intros c front Hc. apply (Hlast c (reverse front)).
    rewrite <- (reverse_involutive m), Hc, reverse_app. done.
Qed.

(** X12.  The page that [call_cerebras_api] returns holds no run of three
    backticks, and neither begins nor ends with white space. *)
Theorem clean_html_no_fence content :
  (∀ a b, clean_html content ≠ a ++ utext "```" ++ b)
  ∧ (∀ c rest, clean_html content = c :: rest → unicode_isspace c = false)
  ∧ (∀ c front, clean_html content = front ++ [c] → unicode_isspace c = false).
Proof.
  unfold clean_html.
  destruct (text_strip_spec (rep (text_replace (utext "```html") [] content)))
    as (a0 & b0 & Hs & Hfirst & Hlast).
  split; [|done]. intros a b Heq. rewrite Heq in Hs.
  apply (rep_no_fence (text_replace (utext "```html") [] content) (a0 ++ a) (b ++ b0)).
  rewrite Hs. by rewrite <- !app_assoc.
Qed.

(** X13.  A content without any backtick is returned as it is, stripped of
    the white space at its ends. *)
Theorem clean_html_plain content :
  96%N ∉ content → clean_html content = text_strip content.
Proof.
  intros Hq. unfold clean_html.
  change (utext "```html") with (96%N :: utext "``html").
  change (utext "```") with (96%N :: utext "``").
  rewrite (replace_absent 96%N (utext "``html") [] content Hq).
  by rewrite (replace_absent 96%N (utext "``") [] content Hq).
Qed.

End Cleaning.

(** ** The handlers *)

Section Handlers.
Context (cfg : Config).

Lemma gate_unfold env r st rest :
  ∃ b w',
    check_rate_limit cfg (env_faults env) (get_client_ip r) (env_time env) (limiter st)
    = Returned (b, w')
    ∧ rate_limit_gate cfg env r st rest
      = if b then rest (set_limiter w' st)
        else (HTTPException 429 (rate_limit_detail cfg), set_limiter w' st).
Proof.
  destruct (check_total cfg (env_faults env) (get_client_ip r) (env_time env) (limiter st))
    as (b & w' & Hc & _).
  exists b, w'. split; [done|]. unfold rate_limit_gate. by rewrite Hc.
Qed.

Lemma handle_gate env q st :
  reaches_handler q = true →
  ∃ rest, handle cfg env q st = rate_limit_gate cfg env (metadata q) st rest
          ∧ after_gate cfg q rest.
Proof.
  destruct q as [r|body r|r|r|r|r]; [| |done|..]; intros _; cbn [handle metadata].
  - eexists. split; [reflexivity|]. unfold call_cerebras_api.
    split; [|split; [|split]]; intros st0; destruct (env_completion env);
      cbn [fst snd limiter ui_history set_history]; try done; try lia.
    + case_bool_decide; rewrite ?length_drop, ?length_app in *; cbn [length] in *; lia.
    + intros _ Hlen.
      case_bool_decide; rewrite ?length_drop, ?length_app in *; cbn [length] in *; lia.
  - eexists. split; [reflexivity|]. unfold call_cerebras_api.
    split; [|split; [|split]]; intros st0; try (intros Hq; by destruct (Hq body r));
      repeat case_bool_decide; cbn [fst snd limiter ui_history set_history]; try done; try lia;
      destruct (env_completion env); cbn [fst snd limiter ui_history set_history];
      try done; rewrite ?length_app; cbn [length]; lia.
  - eexists. split; [reflexivity|].
    split; [|split; [|split]]; intros st0; cbn [fst snd]; try done; lia.
  - eexists. split; [reflexivity|].
    split; [|split; [|split]]; intros st0; cbn [fst snd]; try done; lia.
  - eexists. split; [reflexivity|].
    split; [|split; [|split]]; intros st0; cbn [fst snd]; try done; lia.
Qed.


Lemma handle_unfold env q st :
  reaches_handler q = true →
  ∃ b w' rest,
    check_rate_limit cfg (env_faults env) (get_client_ip (metadata q)) (env_time env)
      (limiter st) = Returned (b, w')
    ∧ after_gate cfg q rest
    ∧ handle cfg env q st
      = if b then rest (set_limiter w' st)
        else (HTTPException 429 (rate_limit_detail cfg), set_limiter w' st).
Proof.
  intros Hq. destruct (handle_gate env q st Hq) as (rest & -> & Hrest).
  destruct (gate_unfold env (metadata q) st rest) as (b & w' & Hc & ->).
  by exists b, w', rest.
Qed.

Lemma handle_history env q st :
  (length (ui_history st) ≤ length (ui_history (handle cfg env q st).2)
   ≤ S (length (ui_history st)))%nat
  ∧ (reads_or_root q = true → length (ui_history st) ≤ 20 →
     length (ui_history (handle cfg env q st).2) ≤ 20)%nat.
Proof.
  destruct (reaches_handler q) eqn:Hreach; [|destruct q; try done; cbn; split; lia].
  destruct (handle_unfold env q st Hreach) as (b & w' & rest & _ & (_ & _ & Hlen & Hcap) & ->).
  destruct b; cbn [snd ui_history set_limiter]; [|lia].
  split; [apply (Hlen (set_limiter w' st))|].
  intros Hq. apply (Hcap (set_limiter w' st)). intros body r ->. done.
Qed.

Lemma calls_of_cons env q qs :
  calls_of ((env, q) :: qs)
  = if reaches_handler q
    then request_at (env_faults env) (get_client_ip (metadata q)) (env_time env) :: calls_of qs
    else calls_of qs.
Proof.
  unfold calls_of. rewrite filter_cons. cbn [snd].
  destruct (reaches_handler q); by case_decide.
Qed.

Lemma handler_replies_cons env q qs r rs :
  handler_replies ((env, q) :: qs) (r :: rs)
  = if reaches_handler q then r :: handler_replies qs rs else handler_replies qs rs.
Proof.
  unfold handler_replies. cbn [zip zip_with]. rewrite filter_cons. cbn [fst snd].
  destruct (reaches_handler q); by case_decide.
Qed.

(** X14.  Every request that reaches the handler of one of the five limited
    endpoints asks the limiter exactly once, before anything else and
    whatever the handler answers later; a post to [/api/generate] whose body
    the framework refuses is answered 422 and asks nothing.  The limiter is
    left as by [check_rate_limit] run on the keys and times of the requests
    that reached their handlers, and such a request is answered 429 with the
    rate-limit message exactly when its check is refused. *)
Theorem one_check_per_request qs st :
  ∃ given w',
    checks cfg (calls_of qs) (limiter st) = Returned (given, w')
    ∧ limiter (serve cfg qs st).2 = w'
    ∧ Forall2 (λ r allowed, r = HTTPException 429 (rate_limit_detail cfg) ↔ allowed = false)
        (handler_replies qs (serve cfg qs st).1) given
    ∧ Forall2 (λ eq r, reaches_handler eq.2 = false → r = RequestValidationError)
        qs (serve cfg qs st).1.
Proof.
  revert st. induction qs as [|[env q] qs IH]; intros st.
  { exists [], (limiter st). repeat split; constructor. }
  rewrite calls_of_cons. cbn [serve].
  destruct (reaches_handler q) eqn:Hq.
  - cbn [checks fst snd request_at call_env call_ip call_time].
    destruct (handle_unfold env q st Hq) as (b & w1 & rest & Hc & (Hno & Hlim & _) & Hh).
    rewrite Hc, Hh.
    assert (limiter (if b then rest (set_limiter w1 st)
                     else (HTTPException 429 (rate_limit_detail cfg), set_limiter w1 st)).2
            = w1) as Hw1.
    { destruct b; [by rewrite Hlim|done]. }
    destruct (if b then rest (set_limiter w1 st)
              else (HTTPException 429 (rate_limit_detail cfg), set_limiter w1 st))
      as [r st1] eqn:E.
    cbn [snd] in Hw1. destruct (IH st1) as (given & w2 & Hrun & Hw2 & Hall & Hrefused).
    rewrite Hw1 in Hrun. rewrite Hrun.
    destruct (serve cfg qs st1) as [rs st2]. cbn [fst snd] in *.
    rewrite handler_replies_cons, Hq.
    exists (b :: given), w2. split; [done|]. split; [done|]. split.
    + constructor; [|done]. destruct b.
      * split; [|done]. intros ->. specialize (Hno (set_limiter w1 st)). by rewrite E in Hno.
      * by injection E as <- _.
    + constructor; [|done]. cbn [snd]. by rewrite Hq.
  - destruct q; try done. cbn [handle].
    destruct (IH st) as (given & w2 & Hrun & Hw2 & Hall & Hrefused).
    destruct (serve cfg qs st) as [rs st2]. cbn [fst snd] in *.
    rewrite handler_replies_cons. cbn [reaches_handler].
    exists given, w2. split; [done|]. split; [done|]. split; [done|].
    by constructor.
Qed.

(** X15.  The history never gets shorter, and no request adds more than
    one entry. *)
Theorem history_never_shrinks qs st :
  (length (ui_history st) ≤ length (ui_history (serve cfg qs st).2)
   ≤ length (ui_history st) + length qs)%nat.
Proof.
  revert st. induction qs as [|[env q] qs IH]; intros st; [cbn; lia|].
  cbn [serve]. pose proof (handle_history env q st) as [Hstep _].
  destruct (handle cfg env q st) as [r st1]. cbn [snd] in Hstep.
  specialize (IH st1). destruct (serve cfg qs st1) as [rs st2]. cbn [snd length] in *. lia.
Qed.

(** X16.  As long as no request goes to [/api/generate], a history of at
    most twenty entries stays at most twenty entries long. *)
Theorem history_cap qs st :
  Forall (λ eq, reads_or_root eq.2 = true) qs →
  (length (ui_history st) ≤ 20)%nat →
  (length (ui_history (serve cfg qs st).2) ≤ 20)%nat.
Proof.
  revert st. induction qs as [|[env q] qs IH]; intros st Hqs Hlen; [done|].
  apply Forall_cons in Hqs as [Hq Hqs]. cbn [snd] in Hq.
  cbn [serve]. pose proof (handle_history env q st) as [_ Hstep].
  destruct (handle cfg env q st) as [r st1]. cbn [snd] in Hstep.
  specialize (IH st1 Hqs (Hstep Hq Hlen)). by destruct (serve cfg qs st1).
Qed.

(** X17.  A request to [/api/generate] that succeeds had a prompt that is
    not blank and a model of [AVAILABLE_MODELS]; it returns the cleaned
    completion with the prompt and model as sent, and adds one entry to the
    end of the history, however long the history already is. *)
Theorem generate_stores_valid_requests env body r st html p m :
  (generate_custom_ui cfg env body r st).1 = Response (Generated html p m) →
  text_strip (prompt body) ≠ []
  ∧ model body ∈ AVAILABLE_MODELS
  ∧ p = prompt body ∧ m = model body
  ∧ (∃ c, env_completion env = Some c ∧ html = clean_html c)
  ∧ ui_history (generate_custom_ui cfg env body r st).2
    = ui_history st ++ [ {| entry_prompt := prompt body; entry_model := model body;
                            html_length := length html;
                            entry_timestamp := env_loop_time env |} ].
Proof.
  unfold generate_custom_ui.
  match goal with |- context [rate_limit_gate cfg env r st ?k] =>
    destruct (gate_unfold env r st k) as (b & w' & _ & ->) end.
  destruct b; [|done]. unfold call_cerebras_api.
  case_bool_decide as Hp; [done|]. case_bool_decide as Hm; [done|].
  destruct (env_completion env) as [c|]; [|done].
  cbn [fst snd ui_history set_history set_limiter]. intros [= <- <- <-].
  split; [done|]. split.
  { exact Hm. }
  split; [done|]. split; [done|]. split; [|done].
  exists c. by split.
Qed.

(** X18.  [/api/history] answers 429 or the last [min(10, n)] entries of
    the [n] held, with [n] as the total, and leaves the history as it is. *)
Theorem history_window env r st :
  ((get_ui_history cfg env r st).1 = HTTPException 429 (rate_limit_detail cfg)
   ∨ (get_ui_history cfg env r st).1
     = Response (History (last_ten (ui_history st)) (length (ui_history st))))
  ∧ last_ten (ui_history st) `suffix_of` ui_history st
  ∧ length (last_ten (ui_history st)) = Nat.min 10 (length (ui_history st))
  ∧ ui_history (get_ui_history cfg env r st).2 = ui_history st.
Proof.
  unfold get_ui_history.
  match goal with |- context [rate_limit_gate cfg env r st ?k] =>
    destruct (gate_unfold env r st k) as (b & w' & _ & ->) end.
  split; [destruct b; [by right|by left]|].
  split; [apply suffix_drop|]. split; [unfold last_ten; rewrite length_drop; lia|].
  by destruct b.
Qed.

(** X19.  When the completion fails, [/] still answers 200, with the
    fallback page, unless the limiter refuses; [/api/generate] answers 429,
    400 or 503; and neither adds an entry to the history. *)
Theorem completion_failure_replies env r body st :
  env_completion env = None →
  ((generate_random_ui cfg env r st).1 = HTTPException 429 (rate_limit_detail cfg)
   ∨ (generate_random_ui cfg env r st).1 = Response FallbackUi)
  ∧ ((generate_custom_ui cfg env body r st).1 = HTTPException 429 (rate_limit_detail cfg)
     ∨ (generate_custom_ui cfg env body r st).1 = HTTPException 400 "Prompt cannot be empty"
     ∨ (generate_custom_ui cfg env body r st).1
       = HTTPException 400 "Model must be one of: ['qwen-3-coder-480b', 'gpt-oss-120b']"
     ∨ (generate_custom_ui cfg env body r st).1 = HTTPException 503 "Failed to generate UI")
  ∧ ui_history (generate_random_ui cfg env r st).2 = ui_history st
  ∧ ui_history (generate_custom_ui cfg env body r st).2 = ui_history st.
Proof.
  intros Hnone. unfold generate_random_ui, generate_custom_ui.
  match goal with |- context [rate_limit_gate cfg env r st ?k] =>
    destruct (gate_unfold env r st k) as (b & w' & Hc & ->) end.
  match goal with |- context [rate_limit_gate cfg env r st ?k] =>
    destruct (gate_unfold env r st k) as (b' & w'' & Hc' & ->) end.
  rewrite Hc in Hc'. injection Hc' as <- <-.
  unfold call_cerebras_api. rewrite Hnone.
  destruct b; cbn [fst snd]; [|by repeat split; left].
  repeat case_bool_decide; cbn [fst snd]; repeat split; auto.
Qed.

(** X20.  [/health] names the storage after its own two probes, whatever
    the limiter does.  With Redis and the database both configured, the ping
    of Redis raising, the pipeline of a check failing before it is sent, and
    the probe of the database returning, [/health] names the database, while
    [check_rate_limit] is answered by the in-process store and leaves the
    table untouched.  With the database alone configured, its probe raising
    and the session of a check working, [/health] names the in-process
    store, while [check_rate_limit] is answered by the database. *)
Theorem health_storage_type_from_probes api_key env st k t :
  (∀ db tb,
     redis_client (limiter st) = Some db → SessionLocal (limiter st) = Some tb →
     env_ping env = false → redis_fault (env_faults env) = Some AtSend →
     env_select_1 env = true →
     storage_type (health_check cfg api_key env st) = Relational
     ∧ check_rate_limit cfg (env_faults env) k t (limiter st)
       = Returned (memory_check cfg k t (limiter st))
     ∧ SessionLocal (memory_check cfg k t (limiter st)).2 = Some tb)
  ∧ (∀ tb,
       redis_client (limiter st) = None → SessionLocal (limiter st) = Some tb →
       env_select_1 env = false → db_fault (env_faults env) = None →
       storage_type (health_check cfg api_key env st) = Memory
       ∧ let session_rows := delete_expired k (t - RATE_LIMIT_WINDOW cfg) (rows tb) in
         check_rate_limit cfg (env_faults env) k t (limiter st)
         = Returned
             (if bool_decide (count_for k session_rows >= RATE_LIMIT_REQUESTS cfg)
              then (false, limiter st)
              else (true, set_table
                            {| rows := session_rows ++
                                         [ {| RateLimitRecord.id := next_id tb;
                                              RateLimitRecord.client_ip := k;
                                              RateLimitRecord.timestamp := t |} ];
                               next_id := next_id tb + 1 |} (limiter st)))).
Proof.
  split.
  - intros db tb Hdb Htb Hping Hfault Hsel. split; [|split].
    + unfold health_check. cbn [storage_type]. rewrite Hdb, Htb, Hping, Hsel.
      rewrite bool_decide_eq_false_2 by (by intros [_ ?]).
      by rewrite bool_decide_eq_true_2.
    + unfold check_rate_limit, check_rate_limit_redis, redis_try. by rewrite Hdb, Hfault.
    + rewrite <- Htb. apply memory_check_stores.
  - intros tb Hdb Htb Hsel Hfault. split.
    + unfold health_check. cbn [storage_type]. rewrite Hdb, Htb, Hsel.
      rewrite bool_decide_eq_false_2 by (by intros [[? ?] _]).
      by rewrite bool_decide_eq_false_2 by (by intros [_ ?]).
    + by apply database_step.
Qed.

End Handlers.

(** * The properties at work *)

Lemma memory_recovers_witness :
  check_rate_limit_memory (quota 2 10) ip_a 11 {[ ip_a := [0; 1] ]}
  = (true, <[ ip_a := [11] ]> {[ ip_a := [0; 1] ]}).
Proof.
  apply (memory_recovers (quota 2 10) ip_a 11 {[ ip_a := [0; 1] ]}).
  - cbn. lia.
  - intros x Hx. vm_compute in Hx. cbn.
    apply elem_of_cons in Hx as [->|Hx]; [lia|].
    apply elem_of_cons in Hx as [->|Hx]; [lia|]. by apply elem_of_nil in Hx.
Defined.

Lemma memory_holds_granted_times_witness :
  [1; 10] `sublist_of`
    granted_times ip_a [(ip_a, 0); (ip_a, 1); (ip_a, 2); (ip_a, 10)]
      (memory_checks (quota 2 10) [(ip_a, 0); (ip_a, 1); (ip_a, 2); (ip_a, 10)] ∅).1.
Proof.
  apply (memory_holds_granted_times (quota 2 10) ip_a
           [(ip_a, 0); (ip_a, 1); (ip_a, 2); (ip_a, 10)] [1; 10]).
  by vm_compute.
Defined.

Lemma limiter_memory_bounded_witness :
  ∃ given w',
    checks (quota 1 10)
      [request_at redis_down ip_a 0; request_at healthy ip_a 1; request_at redis_down ip_a 2]
      (started true true) = Returned (given, w')
    ∧ ∀ k l, rate_limit_storage w' !! k = Some l → Z.of_nat (length l) ≤ 1.
Proof.
  apply (limiter_memory_bounded (quota 1 10)
           [request_at redis_down ip_a 0; request_at healthy ip_a 1;
            request_at redis_down ip_a 2] (started true true)).
  - cbn. lia.
  - reflexivity.
Defined.

Lemma limiter_table_bounded_witness :
  ∃ given w' tb',
    checks (quota 1 10)
      [request_at healthy ip_a 0; request_at healthy ip_a 1;
       request_at {| redis_fault := None; db_fault := Some AtClose |} ip_b 2]
      (started false true) = Returned (given, w')
    ∧ SessionLocal w' = Some tb'
    ∧ ∀ k, count_for k (rows tb') ≤ 1.
Proof.
  apply (limiter_table_bounded (quota 1 10)
           [request_at healthy ip_a 0; request_at healthy ip_a 1;
            request_at {| redis_fault := None; db_fault := Some AtClose |} ip_b 2]
           (started false true) {| rows := []; next_id := 1 |}).
  - cbn. lia.
  - reflexivity.
  - intros k. vm_compute. discriminate.
Defined.

Lemma redis_check_frame_witness :
  let key_a := ("rate_limit:" +:+ ip_a)%string in
  let key_b := ("rate_limit:" +:+ ip_b)%string in
  let other := {| Redis.members := {[ "3"%string := 3 ]}; Redis.expire_at := Some 13 |} in
  let db : gmap string Redis.value :=
    {[ key_a := {| Redis.members := {[ "2"%string := 2 ]}; Redis.expire_at := Some 12 |};
       key_b := other ]} in
  let db' : gmap string Redis.value :=
    {[ key_a := {| Redis.members := {[ "2"%string := 2; "4"%string := 4 ]};
                   Redis.expire_at := Some 14 |};
       key_b := other ]} in
  let w := set_table {| rows := [ {| RateLimitRecord.id := 1; RateLimitRecord.client_ip := ip_a;
                                     RateLimitRecord.timestamp := 2 |} ];
                        next_id := 2 |}
             (set_storage {[ ip_a := [2] ]} (set_redis db (started true true))) in
  check_rate_limit (quota 1 10) healthy ip_a 4 w = Returned (false, set_redis db' w)
  ∧ db' !! key_b = db !! key_b
  ∧ db !! key_b = Some other
  ∧ db' !! key_a ≠ db !! key_a.
Proof.
  intros key_a key_b other db db' w.
  destruct (redis_check_frame (quota 1 10) healthy ip_a 4 w db) as (b & db1 & Hcheck & Hframe);
    [reflexivity | reflexivity |].
  assert (check_rate_limit (quota 1 10) healthy ip_a 4 w = Returned (false, set_redis db' w))
    as Hrun by (by vm_compute).
  rewrite Hrun in Hcheck. injection Hcheck as <- <-.
  split; [done|]. split; [apply Hframe; by vm_compute|]. split; by vm_compute.
Defined.

Lemma database_check_frame_witness :
  let row i k t := {| RateLimitRecord.id := i; RateLimitRecord.client_ip := k;
                      RateLimitRecord.timestamp := t |} in
  let tb := {| rows := [row 1 ip_b 0; row 2 ip_a 1; row 3 ip_a 15; row 4 ip_b 16];
               next_id := 5 |} in
  let tb' := {| rows := [row 1 ip_b 0; row 3 ip_a 15; row 4 ip_b 16; row 5 ip_a 20];
                next_id := 6 |} in
  let w := set_storage {[ ip_a := [15] ]} (set_table tb (started false true)) in
  check_rate_limit (quota 2 10) healthy ip_a 20 w = Returned (true, set_table tb' w)
  ∧ filter (λ r, RateLimitRecord.client_ip r = ip_b) (rows tb')
    = filter (λ r, RateLimitRecord.client_ip r = ip_b) (rows tb)
  ∧ filter (λ r, RateLimitRecord.client_ip r = ip_b) (rows tb) = [row 1 ip_b 0; row 4 ip_b 16].
Proof.
  intros row tb tb' w.
  destruct (database_check_frame (quota 2 10) healthy ip_a 20 w tb)
    as (b & tb1 & Hcheck & Hframe); [reflexivity | reflexivity | reflexivity |].
  assert (check_rate_limit (quota 2 10) healthy ip_a 20 w = Returned (true, set_table tb' w))
    as Hrun by (by vm_compute).
  rewrite Hrun in Hcheck. injection Hcheck as <- <-.
  split; [done|]. split; [apply Hframe; by vm_compute|]. by vm_compute.
Defined.

Lemma rejected_check_effects_witness :
  (check_rate_limit_memory (quota 1 10) ip_a 11 {[ ip_a := [0; 5] ]}).2
  = <[ ip_a := [5] ]> {[ ip_a := [0; 5] ]}
  ∧ check_rate_limit (quota 1 10) healthy ip_a 11
      (set_table {| rows := [ {| RateLimitRecord.id := 1; RateLimitRecord.client_ip := ip_a;
                                 RateLimitRecord.timestamp := 0 |};
                              {| RateLimitRecord.id := 2; RateLimitRecord.client_ip := ip_a;
                                 RateLimitRecord.timestamp := 5 |} ];
                      next_id := 3 |} (started false true))
    = Returned (false,
        set_table {| rows := [ {| RateLimitRecord.id := 1; RateLimitRecord.client_ip := ip_a;
                                  RateLimitRecord.timestamp := 0 |};
                               {| RateLimitRecord.id := 2; RateLimitRecord.client_ip := ip_a;
                                  RateLimitRecord.timestamp := 5 |} ];
                     next_id := 3 |} (started false true)).
Proof.
  destruct (rejected_check_effects (quota 1 10) ip_a 11) as [Hmemory Hdatabase].
  split.
  - rewrite (Hmemory {[ ip_a := [0; 5] ]}); by vm_compute.
  - eapply Hdatabase; [reflexivity|reflexivity|reflexivity|by vm_compute].
Defined.

Lemma redis_check_recorded_witness :
  ∃ b db' v,
    check_rate_limit (quota 1 10) healthy ip_a 7 (started true false)
    = Returned (b, set_redis db' (started true false))
    ∧ db' !! ("rate_limit:" +:+ ip_a)%string = Some v
    ∧ Redis.members v !! str 7 = Some 7
    ∧ Redis.expire_at v = Some (7 + 10).
Proof.
  apply (redis_check_recorded (quota 1 10) healthy ip_a 7 (started true false) ∅).
  - cbn. lia.
  - reflexivity.
  - reflexivity.
Defined.

Lemma store_down_is_memory_witness :
  checks (quota 1 10) [request_at redis_down ip_a 0; request_at redis_down ip_a 1]
    (started true true)
  = Returned
      ((memory_checks (quota 1 10)
          (keyed_times [request_at redis_down ip_a 0; request_at redis_down ip_a 1]) ∅).1,
       set_storage
         (memory_checks (quota 1 10)
            (keyed_times [request_at redis_down ip_a 0; request_at redis_down ip_a 1]) ∅).2
         (started true true)).
Proof.
  apply (store_down_is_memory (quota 1 10)
           [request_at redis_down ip_a 0; request_at redis_down ip_a 1] (started true true)).
  repeat constructor.
Defined.

Lemma forwarded_key_clean_witness :
  let request := {| headers := [("x-forwarded-for", " 1.2.3.4 , 10.0.0.1")]%string;
                    client := None |} in
  occurs "," (get_client_ip request) = false
  ∧ (∀ c, first_char (get_client_ip request) = Some c → isspace c = false)
  ∧ (∀ c, last_char (get_client_ip request) = Some c → isspace c = false).
Proof.
  apply (forwarded_key_clean
           {| headers := [("x-forwarded-for", " 1.2.3.4 , 10.0.0.1")]%string; client := None |}
           " 1.2.3.4 , 10.0.0.1"%string); [reflexivity|discriminate].
Defined.

Lemma forwarded_header_sets_key_witness :
  get_client_ip {| headers := [("x-forwarded-for", "6.6.6.6"); ("x-real-ip", "5.6.7.8")]%string;
                   client := Some {| host := "9.9.9.9"; port := 4711 |} |}
  = "6.6.6.6"%string.
Proof.
  apply (forwarded_header_sets_key "6.6.6.6"%string [("x-real-ip", "5.6.7.8")]%string
           (Some {| host := "9.9.9.9"; port := 4711 |}));
    [discriminate|reflexivity|reflexivity].
Defined.

Lemma clean_html_plain_witness :
  clean_html (utext "  <p>hi</p> ") = text_strip (utext "  <p>hi</p> ").
Proof.
  apply (clean_html_plain (utext "  <p>hi</p> ")).
  vm_compute. intros H. repeat (apply elem_of_cons in H as [H|H]; [discriminate H|]).
  by apply elem_of_nil in H.
Defined.

Lemma one_check_per_request_witness :
  let env t := {| env_faults := healthy; env_time := t; env_prompt_choice := 0;
                  env_model_choice := 0; env_completion := Some (utext "<p>a</p>");
                  env_loop_time := 100; env_ping := true; env_select_1 := true |} in
  let r := {| headers := [("x-real-ip", "1.2.3.4")]%string; client := None |} in
  let body := {| prompt := utext "a page"; model := utext "gpt-oss-120b" |} in
  let qs := [(env 0, GetModels r); (env 1, PostGenerateInvalid r);
             (env 2, PostGenerate body r)] in
  let st := {| limiter := started false false; ui_history := [] |} in
  (serve (quota 1 10) qs st).1
  = [Response (Models AVAILABLE_MODELS); RequestValidationError;
     HTTPException 429 (rate_limit_detail (quota 1 10))]
  ∧ checks (quota 1 10) (calls_of qs) (limiter st)
    = Returned ([true; false], limiter (serve (quota 1 10) qs st).2)
  ∧ rate_limit_storage (limiter (serve (quota 1 10) qs st).2) = {[ ip_a := [0] ]}.
Proof.
  intros env r body qs st.
  destruct (one_check_per_request (quota 1 10) qs st) as (given & w' & Hrun & Hw & _).
  assert (answers (checks (quota 1 10) (calls_of qs) (limiter st)) = Some [true; false])
    as Hgiven by (by vm_compute).
  rewrite Hrun in Hgiven. injection Hgiven as ->.
  split; [by vm_compute|]. split; [by rewrite Hw|]. by vm_compute.
Defined.

Lemma history_cap_witness :
  let entry := {| entry_prompt := utext "a page"; entry_model := utext "gpt-oss-120b";
                  html_length := 9; entry_timestamp := 50 |} in
  let st := {| limiter := started false false; ui_history := replicate 20 entry |} in
  let qs :=
    [ ({| env_faults := healthy; env_time := 0; env_prompt_choice := 3;
          env_model_choice := 1; env_completion := Some (utext "<p>a</p>");
          env_loop_time := 100; env_ping := true; env_select_1 := true |},
       GetRoot {| headers := []; client := None |});
      ({| env_faults := healthy; env_time := 1; env_prompt_choice := 0;
          env_model_choice := 0; env_completion := None;
          env_loop_time := 101; env_ping := true; env_select_1 := true |},
       GetHistory {| headers := []; client := None |}) ] in
  length (ui_history st) = 20%nat
  ∧ (length (ui_history (serve (quota 5 60) qs st).2) ≤ 20)%nat
  ∧ entry_timestamp <$> last (ui_history (serve (quota 5 60) qs st).2) = Some 100.
Proof.
  intros entry st qs. split; [reflexivity|]. split.
  - apply history_cap.
    + repeat constructor.
    + vm_compute. lia.
  - by vm_compute.
Defined.

Lemma generate_stores_valid_requests_witness :
  let env := {| env_faults := healthy; env_time := 0; env_prompt_choice := 0;
                env_model_choice := 0;
                env_completion := Some (utext "```html <p>hi</p> ```");
                env_loop_time := 100; env_ping := true; env_select_1 := true |} in
  let body := {| prompt := utext "a page"; model := utext "gpt-oss-120b" |} in
  let r := {| headers := []; client := None |} in
  let st := {| limiter := started false false; ui_history := [] |} in
  ui_history (generate_custom_ui (quota 5 60) env body r st).2
  = [ {| entry_prompt := utext "a page"; entry_model := utext "gpt-oss-120b";
         html_length := length (utext "<p>hi</p>"); entry_timestamp := 100 |} ].
Proof.
  intros env body r st.
  destruct (generate_stores_valid_requests (quota 5 60) env body r st
              (utext "<p>hi</p>") (utext "a page") (utext "gpt-oss-120b"))
    as (_ & _ & _ & _ & _ & H).
  - by vm_compute.
  - exact H.
Defined.

Lemma completion_failure_replies_witness :
  let env := {| env_faults := healthy; env_time := 0; env_prompt_choice := 0;
                env_model_choice := 0; env_completion := None;
                env_loop_time := 100; env_ping := true; env_select_1 := true |} in
  let r := {| headers := []; client := None |} in
  let st := {| limiter := started false false; ui_history := [] |} in
  ui_history (generate_random_ui (quota 5 60) env r st).2 = []
  ∧ ui_history (generate_custom_ui (quota 5 60) env
                  {| prompt := utext "a page"; model := utext "gpt-oss-120b" |} r st).2 = [].
Proof.
  intros env r st.
  destruct (completion_failure_replies (quota 5 60) env r
              {| prompt := utext "a page"; model := utext "gpt-oss-120b" |} st)
    as (_ & _ & H1 & H2); [reflexivity|].
  by split.
Defined.

Lemma health_storage_type_from_probes_witness :
  let r := {| rows := [ {| RateLimitRecord.id := 1; RateLimitRecord.client_ip := ip_a;
                           RateLimitRecord.timestamp := 0 |} ];
              next_id := 2 |} in
  (let env := {| env_faults := redis_down; env_time := 1; env_prompt_choice := 0;
                 env_model_choice := 0; env_completion := None;
                 env_loop_time := 100; env_ping := false; env_select_1 := true |} in
   let st := {| limiter := set_table r (started true true); ui_history := [] |} in
   storage_type (health_check (quota 1 60) None env st) = Relational
   ∧ check_rate_limit (quota 1 60) redis_down ip_a 1 (limiter st)
     = Returned (true, set_storage {[ ip_a := [1] ]} (limiter st)))
  ∧ (let env := {| env_faults := healthy; env_time := 1; env_prompt_choice := 0;
                   env_model_choice := 0; env_completion := None;
                   env_loop_time := 100; env_ping := false; env_select_1 := false |} in
     let st := {| limiter := set_table r (started false true); ui_history := [] |} in
     storage_type (health_check (quota 1 60) None env st) = Memory
     ∧ check_rate_limit (quota 1 60) healthy ip_a 1 (limiter st)
       = Returned (false, limiter st)).
Proof.
  intros r. split.
  - intros env st.
    destruct (health_storage_type_from_probes (quota 1 60) None env st ip_a 1) as [Hboth _].
    destruct (Hboth ∅ r) as (Hhealth & Hcheck & _); try reflexivity.
    split; [exact Hhealth|]. etrans; [exact Hcheck|]. by vm_compute.
  - intros env st.
    destruct (health_storage_type_from_probes (quota 1 60) None env st ip_a 1) as [_ Hdatabase].
    destruct (Hdatabase r) as (Hhealth & Hcheck); try reflexivity.
    split; [exact Hhealth|]. etrans; [exact Hcheck|]. by vm_compute.
Defined.
